(** * fakit locate: ordered reassembly of parallel motif search results

    A shallow embedding of [fakit/cmd/locate.go].  The command splits a
    FASTA stream into numbered chunks, searches every chunk for the
    patterns in a goroutine of its own, and a receiver goroutine writes
    the results in chunk order.  The goroutines only communicate through
    the results channel [ch], so a run is modelled by the order in which
    the worker results arrive on [ch] (a list of [LocationChunk]) and by
    the order in which each [range regexps] visits the pattern map.

    What the command takes from other packages enters as a variable of
    the section that uses it: the compiled patterns and their
    [FindAllSubmatchIndex], the pairing of letters of the alphabet, the
    reading of the pattern file.  [Seq.RevCom] and [Seq.SubSeq] of the
    sequence library are modelled.  Integers of type [int] and [uint64]
    are kept in [Z]; [id++] wraps around.  A function returns [None]
    where the program panics or a loop does not end. *)

From Stdlib Require Import ZArith Lia Strings.Byte.
From stdpp Require Import gmap strings list fin_maps sorting list_numbers.

Local Open Scope Z_scope.

(** ** Data model *)

(** Go's [[]byte]. *)
Abbreviation bytes := (list byte).

(** [fasta.FastaRecord]: the identifier and the sequence bytes
    ([record.ID] and [record.Seq.Seq] in the source). *)
Record FastaRecord := mkRecord { rcID : bytes; rcSeq : bytes }.

(** [fasta.FastaRecordChunk] as delivered by [fastaReader.Ch]
    (chunks whose [Err] is set stop the program in [checkError]). *)
Record FastaRecordChunk := mkFastaChunk { fcID : Z; fcData : list FastaRecord }.

(** [LocationInfo]: [Locations] holds, for every match, the two indices
    the code reads ([loc[0]] and [loc[1]]). *)
Record LocationInfo := mkInfo {
  Record_ : FastaRecord;
  PatternName : string;
  Strand : Z;
  Locations : list (Z * Z)
}.

(** [LocationChunk]; [ID] is a [uint64], kept in [Z]. *)
Record LocationChunk := mkChunk { ID : Z; Data : list LocationInfo }.

(** The arguments of one [fmt.Sprintf("%s\t%s\t%s\t%d\t%d\t%d\t%s\n", ...)]. *)
Record Row := mkRow {
  seqID : bytes;
  patternName : string;
  pattern : bytes;
  strand : Z;
  start : Z;
  end_ : Z;
  matched : bytes
}.

(** A line of the output file: the header or a match row. *)
Inductive Line := Header | Match (r : Row).

(** [id++] on a [uint64]. *)
Definition uint64_incr (x : Z) : Z := (x + 1) mod 2 ^ 64.

(** ** Sequence capabilities *)

(** Go's [s[a:b]]; out of range the program panics ([None]). *)
Definition slice (s : bytes) (a b : Z) : option bytes :=
  if decide (0 ≤ a ∧ a ≤ b ∧ b ≤ Z.of_nat (length s))
  then Some (take (Z.to_nat (b - a)) (drop (Z.to_nat a) s))
  else None.

Section Sequence.
(** The alphabet's pairing of letters ([Alphabet.PairLetter]). *)
Variable pair : byte → byte.

(** Modelled from the spec: [Seq.RevCom] of the sequence library, the
    reverse complement of a sequence buffer: the letters in reverse
    order, each replaced by its pair. *)
Definition RevCom (s : bytes) : bytes := rev (map pair s).

(** Modelled from the spec: [Seq.SubSeq] of the sequence library, the
    sub-sequence between the 1-based inclusive positions [first] and
    [last].  The library counts an end position below 1 from the end of
    the sequence, and 0 stands for the last position: [SubSeq s 1 0] is
    the whole sequence, which is what the receiver asks for when a
    location is [0, 0]. *)
Definition SubSeq (s : bytes) (first last : Z) : option bytes :=
  if decide (last = 0) then slice s (first - 1) (Z.of_nat (length s))
  else slice s (first - 1) last.

(** ** The receiver goroutine *)

(** [patterns]: pattern name to raw pattern bytes. *)
Variable patterns : gmap string bytes.

(** The state of the receiver: the next chunk [id] to print, the
    buffered [chunks], the lines written to [outfh], and a history
    variable [flushed] listing the chunks whose rows were written, in
    the order of writing. *)
Record Receiver := mkReceiver {
  id : Z;
  chunks : gmap Z LocationChunk;
  outfh : list Line;
  flushed : list LocationChunk
}.

(** The text [s] printed in the last column. *)
Definition matched_text (locationInfo : LocationInfo) (loc : Z * Z) : option bytes :=
  if decide (Strand locationInfo = 1)
  then slice (rcSeq (Record_ locationInfo)) loc.1 loc.2
  else RevCom <$> SubSeq (rcSeq (Record_ locationInfo)) (loc.1 + 1) loc.2.

Definition write_location (locationInfo : LocationInfo) (loc : Z * Z) : option Line :=
  s ← matched_text locationInfo loc;
  Some (Match {| seqID := rcID (Record_ locationInfo);
                 patternName := PatternName locationInfo;
                 pattern := default [] (patterns !! PatternName locationInfo);
                 strand := Strand locationInfo;
                 start := loc.1 + 1;
                 end_ := loc.2;
                 matched := s |}).

Definition write_info (locationInfo : LocationInfo) : option (list Line) :=
  mapM (write_location locationInfo) (Locations locationInfo).

(** The loop [for _, locationInfo := range chunk.Data { ... }], which
    the source repeats at its three printing places. *)
Definition write_chunk (chunk : LocationChunk) : option (list Line) :=
  @concat Line <$> mapM write_info (Data chunk).

Definition flush (st : Receiver) (chunk : LocationChunk) : option Receiver :=
  lines ← write_chunk chunk;
  Some {| id := id st; chunks := chunks st;
          outfh := outfh st ++ lines; flushed := flushed st ++ [chunk] |}.

(** The loop [for true { if chunk, ok := chunks[id]; ok { ... } else
    { break } }] of the else branch.  Every round deletes a buffered
    chunk; [fuel] bounds the number of rounds and [None] stands for a
    loop that has not reached [break] within the bound (or a panic
    while printing). *)
Fixpoint check_buffered (fuel : nat) (st : Receiver) : option Receiver :=
  match chunks st !! id st with
  | Some chunk =>
      match fuel with
      | O => None
      | S fuel' =>
          st1 ← flush st chunk;
          check_buffered fuel'
            {| id := uint64_incr (id st1);
               chunks := delete (ID chunk) (chunks st1);
               outfh := outfh st1; flushed := flushed st1 |}
      end
  | None => Some st
  end.

(** The body of [for chunk := range ch]. *)
Definition receive_chunk (st : Receiver) (chunk : LocationChunk) : option Receiver :=
  if decide (ID chunk = id st) then
    st1 ← flush st chunk;
    Some {| id := uint64_incr (id st1); chunks := chunks st1;
            outfh := outfh st1; flushed := flushed st1 |}
  else
    st1 ← check_buffered (size (chunks st)) st;
    Some {| id := id st1; chunks := <[ID chunk := chunk]> (chunks st1);
            outfh := outfh st1; flushed := flushed st1 |}.

Fixpoint receive (st : Receiver) (ch : list LocationChunk) : option Receiver :=
  match ch with
  | [] => Some st
  | chunk :: rest => st1 ← receive_chunk st chunk; receive st1 rest
  end.

(** [sortLocationChunkMapID]: the keys of the map, sorted ascending. *)
Definition sortLocationChunkMapID (m : gmap Z LocationChunk) : list Z :=
  merge_sort Z.le (map_to_list m).*1.

Fixpoint flush_ids (st : Receiver) (ids : list Z) : option Receiver :=
  match ids with
  | [] => Some st
  | k :: rest =>
      st1 ← flush st (default (mkChunk 0 []) (chunks st !! k));
      flush_ids st1 rest
  end.

(** The block [if len(chunks) > 0 { ... }] after the channel is closed. *)
Definition drain (st : Receiver) : option Receiver :=
  if decide (0 < size (chunks st))%nat
  then flush_ids st (sortLocationChunkMapID (chunks st))
  else Some st.

(** The receiver at start, for the first file: [id = 0], no buffered
    chunk, and the header line already written by the main goroutine. *)
Definition receiver_start : Receiver :=
  {| id := 0; chunks := ∅; outfh := [Header]; flushed := [] |}.

(** The whole receiver goroutine on the arrivals [ch]. *)
Definition receiver (ch : list LocationChunk) : option Receiver :=
  st ← receive receiver_start ch; drain st.

(** Every location of the chunk lies within its record's sequence. *)
Definition info_in_range (locationInfo : LocationInfo) : Prop :=
  Forall (λ loc : Z * Z, 0 ≤ loc.1 ∧ loc.1 ≤ loc.2 ∧
               loc.2 ≤ Z.of_nat (length (rcSeq (Record_ locationInfo))))
         (Locations locationInfo).

Definition chunk_in_range (chunk : LocationChunk) : Prop :=
  Forall info_in_range (Data chunk).

(** The invariant of the reception loop after the chunks [rcvd] have
    arrived: [g] chunks have been written, they are the chunks
    [0 .. g-1] in order, every buffered chunk sits under its own ID,
    which is at least [g], and nothing that arrived is lost. *)
Record buffer_inv (g : Z) (rcvd : list LocationChunk) (st : Receiver) : Prop := {
  inv_nonneg : 0 ≤ g;
  inv_id : id st = g mod 2 ^ 64;
  inv_flushed : ID <$> flushed st = seqZ 0 g;
  inv_keys : ∀ k c, chunks st !! k = Some c → ID c = k ∧ g ≤ k;
  inv_perm : flushed st ++ (map_to_list (chunks st)).*2 ≡ₚ rcvd
}.

(** The lines written so far are the header followed by the rows of the
    chunks written so far. *)
Definition out_inv (st : Receiver) : Prop :=
  ∃ ls, mapM write_chunk (flushed st) = Some ls ∧
        outfh st = Header :: concat ls.

End Sequence.

(** ** The worker goroutine *)

Section Worker.
Variable pair : byte → byte.

(** A compiled [*regexp.Regexp] and its [FindAllSubmatchIndex(s, -1)],
    of which the code reads the span [(loc[0], loc[1])] of every match. *)
Variable Regexp : Type.
Variable FindAllSubmatchIndex : Regexp → bytes → list (Z * Z).

Variable onlyPositiveStrand : bool.

(** What one pattern adds for one record, stated apart from the loop
    ([locate_pattern_app] relates the two): at most one entry for the
    forward strand, then at most one for the reverse strand. *)
Definition forward_matches (record : FastaRecord) (entry : string * Regexp)
    : list LocationInfo :=
  let found := FindAllSubmatchIndex entry.2 (rcSeq record) in
  if decide (0 < length found)%nat then [mkInfo record entry.1 1 found] else [].

Definition reverse_matches (record : FastaRecord) (entry : string * Regexp)
    : list LocationInfo :=
  if onlyPositiveStrand then []
  else
    let seqRP := RevCom pair (rcSeq record) in
    let found := FindAllSubmatchIndex entry.2 seqRP in
    if decide (0 < length found)%nat
    then [mkInfo record entry.1 (-1)
            ((λ loc : Z * Z, (Z.of_nat (length seqRP) - loc.2,
                              Z.of_nat (length seqRP) - loc.1)) <$> found)]
    else [].

(** The body of [for pName, re := range regexps] for one entry of the
    map; [locations] is the slice appended to. *)
Definition locate_pattern (record : FastaRecord) (locations : list LocationInfo)
    (entry : string * Regexp) : list LocationInfo :=
  let pName := entry.1 in
  let re := entry.2 in
  let found := FindAllSubmatchIndex re (rcSeq record) in
  let locations :=
    if decide (0 < length found)%nat
    then locations ++ [mkInfo record pName 1 found]
    else locations in
  if onlyPositiveStrand then locations
  else
    let seqRP := RevCom pair (rcSeq record) in
    let found := FindAllSubmatchIndex re seqRP in
    if decide (0 < length found)%nat then
      let l := Z.of_nat (length seqRP) in
      let tlocs := (λ loc : Z * Z, (l - loc.2, l - loc.1)) <$> found in
      locations ++ [mkInfo record pName (-1) tlocs]
    else locations.

(** One execution of [for pName, re := range regexps { ... }].  Go does
    not fix the order in which [range] visits a map: [order] is the
    order of this execution. *)
Definition locate_record (order : list (string * Regexp)) (record : FastaRecord)
    (locations : list LocationInfo) : list LocationInfo :=
  foldl (locate_pattern record) locations order.

(** [for _, record := range chunk.Data { ... }]; [iter i] is the order
    in which the map is visited for the record at index [i]. *)
Fixpoint locate_records (iter : nat → list (string * Regexp)) (i : nat)
    (records : list FastaRecord) (locations : list LocationInfo) : list LocationInfo :=
  match records with
  | [] => locations
  | record :: rest =>
      locate_records iter (S i) rest (locate_record (iter i) record locations)
  end.

(** The worker goroutine: the chunk sent on [ch]. *)
Definition worker (iter : nat → list (string * Regexp)) (chunk : FastaRecordChunk)
    : LocationChunk :=
  mkChunk (fcID chunk) (locate_records iter 0 (fcData chunk) []).

(** The map iteration orders of a whole run: one for every chunk ID and
    every record index.  Each is an enumeration of [regexps]. *)
Definition range_orders (regexps : gmap string Regexp)
    (iter : Z → nat → list (string * Regexp)) : Prop :=
  ∀ cid i, iter cid i ≡ₚ map_to_list regexps.

(** ** Producer and workers *)

(** The main goroutine and its workers: the chunks still to read from
    [fastaReader.Ch], the results of the workers that hold a token and
    have not sent yet, and what has been sent on [ch] so far. *)
Record Coordinator := mkCoordinator {
  todo : list FastaRecordChunk;
  running : list LocationChunk;
  sent : list LocationChunk
}.

(** A chunk is handed to a new worker when a token is free
    ([tokens <- 1], a channel of capacity [threads]); a running worker
    sends its result and returns its token. *)
Inductive coordinator_step (threads : nat) (iter : Z → nat → list (string * Regexp))
    : Coordinator → Coordinator → Prop :=
| step_dispatch chunk rest run out :
    (length run < threads)%nat →
    coordinator_step threads iter
      (mkCoordinator (chunk :: rest) run out)
      (mkCoordinator rest (run ++ [worker (iter (fcID chunk)) chunk]) out)
| step_send rest run1 result run2 out :
    coordinator_step threads iter
      (mkCoordinator rest (run1 ++ result :: run2) out)
      (mkCoordinator rest (run1 ++ run2) (out ++ [result])).

(** [arrivals] is a possible content of [ch] at [close(ch)], after
    [wg.Wait()], for the chunk stream [input]. *)
Definition pipeline_run (threads : nat) (iter : Z → nat → list (string * Regexp))
    (input : list FastaRecordChunk) (arrivals : list LocationChunk) : Prop :=
  rtc (coordinator_step threads iter)
      (mkCoordinator input [] []) (mkCoordinator [] [] arrivals).

(** The results of the workers, in the order of the input. *)
Definition results (iter : Z → nat → list (string * Regexp))
    (input : list FastaRecordChunk) : list LocationChunk :=
  (λ chunk, worker (iter (fcID chunk)) chunk) <$> input.

(** Everything the coordinator holds: sent, running, still to read. *)
Definition in_pipeline (iter : Z → nat → list (string * Regexp))
    (s : Coordinator) : list LocationChunk :=
  sent s ++ running s ++ results iter (todo s).

(** The lines of the output file of a run with the arrivals [arrivals]. *)
Definition output (patterns : gmap string bytes) (arrivals : list LocationChunk)
    : option (list Line) :=
  outfh <$> receiver pair patterns arrivals.

(** The chunk stream of the reader: IDs [0, 1, 2, ...] in order. *)
Definition chunk_stream (input : list FastaRecordChunk) : Prop :=
  fcID <$> input = seqZ 0 (Z.of_nat (length input)).

End Worker.

(** ** Pattern preparation *)

Section Patterns.
Variable Regexp : Type.
(** [regexp.Compile]; [None] is an error, which [checkError] turns into
    the end of the program. *)
Variable Compile : string → option Regexp.
(** [Seq.Degenerate2Regexp] and [seq.NewSeq(alphabet, _)] of the
    sequence library. *)
Variable Degenerate2Regexp : bytes → string.
Variable NewSeq : bytes → option bytes.
(** [fasta.GetSeqsMap(patternFile, ...)]: the records of a file by name. *)
Variable GetSeqsMap : string → option (gmap string FastaRecord).

Variables degenerate ignoreCase : bool.

Definition with_flags (s : string) : string :=
  if ignoreCase then "(?i)" +:+ s else s.

(** The expression compiled for a record of the pattern file. *)
Definition file_pattern_source (record : FastaRecord) : string :=
  with_flags
    (if degenerate then Degenerate2Regexp (rcSeq record)
     else String.string_of_list_byte (rcSeq record)).

(** The body of [for name, record := range records]. *)
Definition add_file_pattern
    (acc : option (gmap string bytes * gmap string Regexp))
    (entry : string * FastaRecord) : option (gmap string bytes * gmap string Regexp) :=
  maps ← acc;
  let name := entry.1 in
  let record := entry.2 in
  let s := if degenerate then Degenerate2Regexp (rcSeq record)
           else String.string_of_list_byte (rcSeq record) in
  re ← Compile (with_flags s);
  Some (<[name := rcSeq record]> maps.1, <[name := re]> maps.2).

(** The body of [for _, p := range pattern]. *)
Definition add_flag_pattern
    (acc : option (gmap string bytes * gmap string Regexp))
    (p : string) : option (gmap string bytes * gmap string Regexp) :=
  maps ← acc;
  s ← (if degenerate then Degenerate2Regexp <$> NewSeq (String.list_byte_of_string p)
       else Some p);
  re ← Compile (with_flags s);
  Some (<[p := String.list_byte_of_string p]> maps.1, <[p := re]> maps.2).

(** Lines 69 to 120: the maps [patterns] and [regexps], or [None] when
    [checkError] stops the program. *)
Definition prepare_patterns (pattern : list string) (patternFile : string)
    : option (gmap string bytes * gmap string Regexp) :=
  if decide (length pattern = 0%nat ∧ patternFile = "") then None
  else if decide (patternFile ≠ "") then
    records ← GetSeqsMap patternFile;
    foldl add_file_pattern (Some (∅, ∅)) (map_to_list records)
  else
    foldl add_flag_pattern (Some (∅, ∅)) pattern.

End Patterns.

(** ** A matcher and an alphabet to run the model on

    Literal patterns: the leftmost occurrences that do not overlap, as a
    regular expression without metacharacters finds them; the empty
    pattern matches before every letter and at the end. *)

Fixpoint has_prefix (pat s : bytes) : bool :=
  match pat, s with
  | [], _ => true
  | _ :: _, [] => false
  | p :: pat', c :: s' => Byte.eqb p c && has_prefix pat' s'
  end.

Fixpoint find_literal (pat s : bytes) (pos : Z) (skip : nat) {struct s} : list (Z * Z) :=
  match s with
  | [] =>
      match skip, pat with
      | O, [] => [(pos, pos)]
      | _, _ => []
      end
  | _ :: s' =>
      match skip with
      | S k => find_literal pat s' (pos + 1) k
      | O =>
          if has_prefix pat s
          then (pos, pos + Z.of_nat (length pat))
                 :: find_literal pat s' (pos + 1) (Nat.pred (length pat))
          else find_literal pat s' (pos + 1) 0
      end
  end.

Definition literal_find (pat s : bytes) : list (Z * Z) := find_literal pat s 0 0.

(** Patterns of the form [x*], a letter and a star, which match the
    empty text too: at every position the longest run of the letter; an
    empty match that touches the match before it is left out, as
    [FindAll] of [regexp] does.  [run] is the start of the run of the
    letter that ends at [pos], if there is one. *)
Fixpoint find_star (c : byte) (s : bytes) (pos : Z) (run : option Z) : list (Z * Z) :=
  match s with
  | [] => [(default pos run, pos)]
  | x :: s' =>
      if Byte.eqb x c then find_star c s' (pos + 1) (Some (default pos run))
      else (default pos run, pos) :: find_star c s' (pos + 1) None
  end.

Definition star_find (c : byte) (s : bytes) : list (Z * Z) := find_star c s 0 None.

(** The pairing of the letters A (x41) and T (x54), C (x43) and G (x47). *)
Definition DNA_pair (b : byte) : byte :=
  match b with
  | x41 => x54
  | x54 => x41
  | x43 => x47
  | x47 => x43
  | _ => b
  end.

(** ** Example data *)

Definition letters (s : string) : bytes := String.list_byte_of_string s.

Definition example_record1 : FastaRecord := mkRecord (letters "seq1") (letters "AACGTT").
Definition example_record2 : FastaRecord := mkRecord (letters "seq2") (letters "ACACAC").
Definition example_record3 : FastaRecord := mkRecord (letters "seq3") (letters "TTTT").
Definition example_record4 : FastaRecord := mkRecord (letters "seq4") (letters "A").

Definition example_input : list FastaRecordChunk :=
  [mkFastaChunk 0 [example_record1]; mkFastaChunk 1 [example_record2];
   mkFastaChunk 2 [example_record3]].

(** The maps for [-p AC -p GT]: [regexps] holds the literals and
    [patterns] their bytes. *)
Definition example_patterns : gmap string bytes :=
  <["AC" := letters "AC"]> {["GT" := letters "GT"]}.

Definition example_order : list (string * bytes) :=
  [("AC", letters "AC"); ("GT", letters "GT")].

Definition example_order_swapped : list (string * bytes) :=
  [("GT", letters "GT"); ("AC", letters "AC")].

Definition example_iter : Z → nat → list (string * bytes) := λ _ _, example_order.
Definition example_iter_swapped : Z → nat → list (string * bytes) :=
  λ _ _, example_order_swapped.

Definition example_results (iter : Z → nat → list (string * bytes))
    (input : list FastaRecordChunk) : list LocationChunk :=
  results DNA_pair bytes literal_find false iter input.

(** A record written to the output: some written chunk has an entry for it. *)
Definition record_written (record : FastaRecord) (st : Receiver) : Prop :=
  ∃ chunk info, chunk ∈ flushed st ∧ info ∈ Data chunk ∧ Record_ info = record.

Definition example_worker (chunk : FastaRecordChunk) : LocationChunk :=
  worker DNA_pair bytes literal_find false (example_iter (fcID chunk)) chunk.

Definition example_chunk0 : FastaRecordChunk := mkFastaChunk 0 [example_record1].
Definition example_chunk1 : FastaRecordChunk := mkFastaChunk 1 [example_record2].
Definition example_chunk2 : FastaRecordChunk := mkFastaChunk 2 [example_record3].

(** The results of the three chunks of [example_input], the last one
    arriving first. *)
Definition example_arrivals : list LocationChunk :=
  [example_worker example_chunk2; example_worker example_chunk0;
   example_worker example_chunk1].

(** The maps for [-p 'C*']: [regexps] holds the starred letter C (x43). *)
Definition example_star_patterns : gmap string bytes := {["C*" := letters "C*"]}.

Definition example_star_order : list (string * byte) := [("C*", x43)].

Definition example_star_input : list FastaRecordChunk := [mkFastaChunk 0 [example_record4]].

Definition example_pattern_file (patternFile : string)
    : option (gmap string FastaRecord) :=
  if decide (patternFile = "motifs.fa")
  then Some {["m1" := mkRecord (letters "m1") (letters "ACGT")]}
  else None.

(** ** The rows of a chunk, as a function

    What the receiver prints for an entry and a location when the
    location lies within the sequence ([write_location_row] relates it to
    [write_location]). *)

Section Rows.
Variable pair : byte → byte.
Variable patterns : gmap string bytes.

Definition row_of (locationInfo : LocationInfo) (loc : Z * Z) : Row :=
  let text := take (Z.to_nat (loc.2 - loc.1))
                (drop (Z.to_nat loc.1) (rcSeq (Record_ locationInfo))) in
  let sub := if decide (loc.2 = 0) then rcSeq (Record_ locationInfo) else text in
  {| seqID := rcID (Record_ locationInfo);
     patternName := PatternName locationInfo;
     pattern := default [] (patterns !! PatternName locationInfo);
     strand := Strand locationInfo;
     start := loc.1 + 1;
     end_ := loc.2;
     matched := if decide (Strand locationInfo = 1) then text else RevCom pair sub |}.

Definition rows_of_info (locationInfo : LocationInfo) : list Line :=
  (λ loc, Match (row_of locationInfo loc)) <$> Locations locationInfo.

Definition rows_of_chunk (chunk : LocationChunk) : list Line :=
  Data chunk ≫= rows_of_info.

End Rows.

(** ** The expression compiled for a listed pattern *)

Section ListedPatterns.
Variable Regexp : Type.
Variable Compile : string → option Regexp.
Variable Degenerate2Regexp : bytes → string.
Variable NewSeq : bytes → option bytes.
Variables degenerate ignoreCase : bool.

(** What [regexps[p]] is set to for a pattern [p] of the list, or [None]
    when [seq.NewSeq] or [regexp.Compile] reports an error
    ([add_flag_pattern_step] relates it to the loop body). *)
Definition flag_pattern_regexp (p : string) : option Regexp :=
  s ← (if degenerate then Degenerate2Regexp <$> NewSeq (String.list_byte_of_string p)
       else Some p);
  Compile (with_flags ignoreCase s).

End ListedPatterns.

(** ** Several input files *)

Section Files.
Variable pair : byte → byte.
Variable patterns : gmap string bytes.

(** The receiver goroutine of a file when [outfh] already holds the
    lines [written]: it starts again with [id = 0] and an empty buffer. *)
Definition receiver_on (written : list Line) (ch : list LocationChunk)
    : option Receiver :=
  st ← receive pair patterns
         {| id := 0; chunks := ∅; outfh := written; flushed := [] |} ch;
  drain pair patterns st.

(** [for _, file := range files { ... }]: every file is given by the
    arrivals on its channel; the next file starts after [<-done]. *)
Fixpoint locate_files (written : list Line) (files : list (list LocationChunk))
    : option (list Line) :=
  match files with
  | [] => Some written
  | ch :: rest => st ← receiver_on written ch; locate_files (outfh st) rest
  end.

(** The same state with the lines [written] before its own. *)
Definition after_lines (written : list Line) (st : Receiver) : Receiver :=
  {| id := id st; chunks := chunks st; outfh := written ++ outfh st;
     flushed := flushed st |}.

End Files.

(** What holds of the receiver for arrivals with any IDs, repeated or
    late ones too: buffered chunks sit under their own IDs, and what is
    buffered or written has arrived. *)
Definition arrived_only (rcvd : list LocationChunk) (st : Receiver) : Prop :=
  (∀ k c, chunks st !! k = Some c → ID c = k ∧ c ∈ rcvd) ∧
  (∀ c, c ∈ flushed st → c ∈ rcvd).

(** ** More example data *)

(** Two results with the IDs 3 and 0: the chunks 1 and 2 are missing. *)
Definition example_gap_arrivals : list LocationChunk :=
  [mkChunk 3 (Data (example_worker example_chunk0));
   mkChunk 0 (Data (example_worker example_chunk1))].

(** The same result arriving twice. *)
Definition example_repeated_arrivals : list LocationChunk :=
  [example_worker example_chunk0; example_worker example_chunk0].

(** A chunk whose only record has no match. *)
Definition example_input_unmatched : list FastaRecordChunk :=
  [mkFastaChunk 0 [example_record3]].

(** * Properties *)

(** ** Lists of consecutive integers *)

Lemma seqZ_snoc (g : Z) : 0 ≤ g → seqZ 0 (g + 1) = seqZ 0 g ++ [g].
Proof.
  intros Hg. rewrite seqZ_app by lia. simpl. done.
Qed.

Lemma seqZ_split (g n : Z) : 0 ≤ g ≤ n → seqZ 0 n = seqZ 0 g ++ seqZ g (n - g).
Proof.
  intros Hg. replace n with (g + (n - g)) at 1 by lia.
  rewrite seqZ_app by lia. done.
Qed.

Lemma Sorted_seqZ (m n : Z) : Sorted Z.le (seqZ m n).
Proof.
  destruct (decide (0 ≤ n)) as [Hn|Hn]; [|rewrite seqZ_nil by lia; constructor].
  revert m. pattern n. apply natlike_ind; [|clear n Hn|exact Hn].
  - intros m. rewrite seqZ_nil by lia. constructor.
  - intros n Hn IH m. rewrite seqZ_cons by lia.
    replace (Z.pred (Z.succ n)) with n by lia.
    constructor; [apply IH|].
    destruct (decide (0 < n)) as [Hp|Hp].
    + rewrite seqZ_cons by lia. constructor. lia.
    + rewrite seqZ_nil by lia. constructor.
Qed.

(** Two enumerations of the same elements that agree on a key without
    repetition are the same list. *)
Lemma Permutation_same_keys {A} (f : A → Z) (l1 l2 : list A) :
  l1 ≡ₚ l2 → f <$> l1 = f <$> l2 → NoDup (f <$> l1) → l1 = l2.
Proof.
  revert l2. induction l1 as [|x l1 IH]; intros l2 Hp Hm Hnd.
  - by apply Permutation_nil_l in Hp.
  - destruct l2 as [|y l2]; [by apply Permutation_nil_r in Hp|].
    rewrite !fmap_cons in Hm. injection Hm as Hxy Hm.
    rewrite fmap_cons in Hnd. apply NoDup_cons in Hnd as [Hx Hnd].
    assert (x = y) as ->.
    { assert (x ∈ y :: l2) as Hin by (rewrite <- Hp; left).
      apply elem_of_cons in Hin as [?|Hin]; [done|].
      exfalso. apply Hx. rewrite Hm. by apply list_elem_of_fmap_2. }
    f_equal. apply IH; [by apply Permutation_cons_inv in Hp|done|done].
Qed.

(** ** The receiver *)

Section ReceiverFacts.
Variable pair : byte → byte.
Variable patterns : gmap string bytes.

Lemma slice_in_range (s : bytes) (a b : Z) :
  0 ≤ a ∧ a ≤ b ∧ b ≤ Z.of_nat (length s) →
  slice s a b = Some (take (Z.to_nat (b - a)) (drop (Z.to_nat a) s)).
Proof. intros H. unfold slice. by rewrite decide_True. Qed.

Lemma matched_text_in_range (locationInfo : LocationInfo) (loc : Z * Z) :
  0 ≤ loc.1 ∧ loc.1 ≤ loc.2 ∧ loc.2 ≤ Z.of_nat (length (rcSeq (Record_ locationInfo))) →
  is_Some (matched_text pair locationInfo loc).
Proof.
  intros H. unfold matched_text, SubSeq. case_decide.
  - rewrite slice_in_range by done. eauto.
  - case_decide; rewrite slice_in_range by lia; simpl; eauto.
Qed.

Lemma write_chunk_in_range (chunk : LocationChunk) :
  chunk_in_range chunk → is_Some (write_chunk pair patterns chunk).
Proof.
  intros H. unfold write_chunk. apply fmap_is_Some, mapM_is_Some.
  eapply Forall_impl; [exact H|]. intros info Hinfo. simpl.
  apply mapM_is_Some. eapply Forall_impl; [exact Hinfo|].
  intros loc Hloc. simpl. unfold write_location.
  destruct (matched_text_in_range info loc Hloc) as [s ->]. simpl. eauto.
Qed.

Lemma flush_in_range (st : Receiver) (chunk : LocationChunk) :
  chunk_in_range chunk →
  ∃ lines, write_chunk pair patterns chunk = Some lines ∧
    flush pair patterns st chunk = Some (mkReceiver (id st) (chunks st) (outfh st ++ lines)
                                      (flushed st ++ [chunk])).
Proof.
  intros H. destruct (write_chunk_in_range chunk H) as [lines Hl].
  exists lines. split; [done|]. unfold flush. by rewrite Hl.
Qed.

Lemma buffer_inv_start : buffer_inv 0 [] receiver_start.
Proof.
  split; simpl; try done.
Qed.

Lemma buffered_arrived g rcvd st k c :
  buffer_inv g rcvd st → chunks st !! k = Some c → c ∈ rcvd.
Proof.
  intros Hinv Hk. rewrite <- (inv_perm _ _ _ Hinv).
  apply elem_of_app. right.
  apply list_elem_of_fmap. exists (k, c). split; [done|].
  by apply elem_of_map_to_list.
Qed.

Lemma fresh_not_below g rcvd st (chunk : LocationChunk) :
  buffer_inv g rcvd st → ID chunk ∉ ID <$> rcvd → 0 ≤ ID chunk → g ≤ ID chunk.
Proof.
  intros Hinv Hfresh Hpos.
  destruct (decide (g ≤ ID chunk)) as [|Hlt]; [done|]. exfalso.
  apply Hfresh. rewrite <- (inv_perm _ _ _ Hinv), fmap_app.
  apply elem_of_app. left. rewrite (inv_flushed _ _ _ Hinv).
  apply elem_of_seqZ. lia.
Qed.

Lemma fresh_not_buffered g rcvd st (chunk : LocationChunk) :
  buffer_inv g rcvd st → ID chunk ∉ ID <$> rcvd → chunks st !! ID chunk = None.
Proof.
  intros Hinv Hfresh.
  destruct (chunks st !! ID chunk) as [c|] eqn:Hc; [|done]. exfalso.
  apply Hfresh. destruct (inv_keys _ _ _ Hinv _ _ Hc) as [<- _].
  apply list_elem_of_fmap_2. eauto using buffered_arrived.
Qed.

(** A buffered chunk found under [id] is the chunk number [g], and [id]
    has not wrapped around. *)
Lemma buffered_next g rcvd st c :
  buffer_inv g rcvd st → chunks st !! id st = Some c → id st = g ∧ ID c = g.
Proof.
  intros Hinv Hc. destruct (inv_keys _ _ _ Hinv _ _ Hc) as [Hid Hge].
  pose proof (inv_id _ _ _ Hinv) as Hmod. pose proof (inv_nonneg _ _ _ Hinv).
  assert (g mod 2 ^ 64 ≤ g) by (apply Z.mod_le; lia). lia.
Qed.

Lemma buffer_inv_flush_next g rcvd st c lines :
  buffer_inv g rcvd st → chunks st !! id st = Some c →
  buffer_inv (g + 1) rcvd
    (mkReceiver (uint64_incr (id st)) (delete (ID c) (chunks st))
                (outfh st ++ lines) (flushed st ++ [c])).
Proof.
  intros Hinv Hc. destruct (buffered_next _ _ _ _ Hinv Hc) as [Hid HIDc].
  pose proof (inv_nonneg _ _ _ Hinv) as Hg.
  split; simpl.
  - lia.
  - unfold uint64_incr. by rewrite Hid.
  - rewrite fmap_app, (inv_flushed _ _ _ Hinv), seqZ_snoc by done.
    simpl. by rewrite HIDc.
  - intros k c' Hk. apply lookup_delete_Some in Hk as [Hne Hk].
    destruct (inv_keys _ _ _ Hinv _ _ Hk). lia.
  - rewrite <- (inv_perm _ _ _ Hinv), <- app_assoc. apply Permutation_app_head.
    rewrite HIDc, <- Hid. simpl.
    by rewrite <- (map_to_list_delete (chunks st) (id st) c Hc).
Qed.

Lemma check_buffered_inv fuel : ∀ g rcvd st,
  buffer_inv g rcvd st → Forall chunk_in_range rcvd →
  (size (chunks st) ≤ fuel)%nat →
  ∃ g' st', check_buffered pair patterns fuel st = Some st' ∧ buffer_inv g' rcvd st' ∧
    g ≤ g' ∧ chunks st' !! id st' = None ∧ chunks st' ⊆ chunks st.
Proof.
  induction fuel as [|fuel IH]; intros g rcvd st Hinv Hrange Hsize; simpl.
  - apply Nat.le_0_r, map_size_empty_iff in Hsize.
    assert (chunks st !! id st = None) as Hc by (by rewrite Hsize, lookup_empty).
    rewrite Hc. by exists g, st.
  - destruct (chunks st !! id st) as [c|] eqn:Hc; [|by exists g, st].
    assert (chunk_in_range c) as Hr.
    { rewrite Forall_forall in Hrange. eauto using buffered_arrived. }
    destruct (flush_in_range st c Hr) as (lines & _ & ->). simpl.
    destruct (IH (g + 1) rcvd _ (buffer_inv_flush_next _ _ _ _ lines Hinv Hc) Hrange)
      as (g' & st' & Hrun & Hinv' & Hle & Hnone & Hsub).
    { simpl. rewrite map_size_delete.
      destruct (buffered_next _ _ _ _ Hinv Hc) as [Hid HIDc].
      rewrite HIDc, <- Hid, Hc. lia. }
    exists g', st'. split; [done|]. split; [done|]. split; [lia|]. split; [done|].
    etrans; [exact Hsub|]. simpl. apply delete_subseteq.
Qed.

Lemma receive_chunk_inv g rcvd st (chunk : LocationChunk) :
  buffer_inv g rcvd st → Forall chunk_in_range (rcvd ++ [chunk]) →
  ID chunk ∉ ID <$> rcvd → 0 ≤ ID chunk →
  ∃ g' st', receive_chunk pair patterns st chunk = Some st' ∧
    buffer_inv g' (rcvd ++ [chunk]) st' ∧ g ≤ g'.
Proof.
  intros Hinv Hrange Hfresh Hpos.
  apply Forall_app in Hrange as [Hrange Hchunk].
  rewrite Forall_singleton in Hchunk.
  pose proof (fresh_not_below _ _ _ _ Hinv Hfresh Hpos) as Hge.
  pose proof (fresh_not_buffered _ _ _ _ Hinv Hfresh) as Hnone.
  pose proof (inv_nonneg _ _ _ Hinv) as Hg.
  unfold receive_chunk. case_decide as Heq.
  - destruct (flush_in_range st chunk Hchunk) as (lines & _ & ->). simpl.
    assert (ID chunk = g) as HID.
    { pose proof (inv_id _ _ _ Hinv).
      assert (g mod 2 ^ 64 ≤ g) by (apply Z.mod_le; lia). lia. }
    exists (g + 1), (mkReceiver (uint64_incr (id st)) (chunks st)
                       (outfh st ++ lines) (flushed st ++ [chunk])).
    split; [done|]. split; [|lia]. split; simpl.
    + lia.
    + unfold uint64_incr. by rewrite <- Heq, HID.
    + rewrite fmap_app, (inv_flushed _ _ _ Hinv), seqZ_snoc by done.
      simpl. by rewrite HID.
    + intros k c Hk. destruct (inv_keys _ _ _ Hinv _ _ Hk) as [? ?].
      split; [done|]. assert (k ≠ ID chunk) by congruence. lia.
    + rewrite <- (inv_perm _ _ _ Hinv), <- !app_assoc.
      apply Permutation_app_head, Permutation_app_comm.
  - destruct (check_buffered_inv (size (chunks st)) g rcvd st Hinv Hrange)
      as (g' & st' & -> & Hinv' & Hle & Hbreak & Hsub); [done|]. simpl.
    pose proof (fresh_not_below _ _ _ _ Hinv' Hfresh Hpos) as Hge'.
    pose proof (fresh_not_buffered _ _ _ _ Hinv' Hfresh) as Hnone'.
    eexists g', _. split; [done|]. split; [|done]. split; simpl.
    + by destruct Hinv'.
    + by destruct Hinv'.
    + by destruct Hinv'.
    + intros k c Hk. apply lookup_insert_Some in Hk as [[<- <-]|[Hne Hk]].
      * done.
      * by apply (inv_keys _ _ _ Hinv').
    + rewrite map_to_list_insert by done. rewrite fmap_cons. simpl.
      rewrite <- (inv_perm _ _ _ Hinv'), <- app_assoc.
      apply Permutation_app_head, Permutation_cons_append.
Qed.

Lemma receive_inv (rest : list LocationChunk) : ∀ g rcvd st,
  buffer_inv g rcvd st → Forall chunk_in_range (rcvd ++ rest) →
  NoDup (ID <$> rcvd ++ rest) → Forall (λ c, 0 ≤ ID c) rest →
  ∃ g' st', receive pair patterns st rest = Some st' ∧
    buffer_inv g' (rcvd ++ rest) st' ∧ g ≤ g'.
Proof.
  induction rest as [|chunk rest IH]; intros g rcvd st Hinv Hrange Hnd Hpos; simpl.
  - exists g, st. by rewrite app_nil_r.
  - apply Forall_cons in Hpos as [Hpos0 Hpos].
    rewrite (cons_middle chunk), app_assoc in Hrange, Hnd.
    destruct (receive_chunk_inv g rcvd st chunk Hinv) as (g1 & st1 & -> & Hinv1 & Hle1).
    + by apply Forall_app in Hrange as [? _].
    + rewrite !fmap_app in Hnd. apply NoDup_app in Hnd as [Hnd _].
      apply NoDup_app in Hnd as (_ & Hdisj & _).
      intros Hin. apply (Hdisj _ Hin). simpl. left.
    + done.
    + simpl. destruct (IH g1 _ st1 Hinv1 Hrange Hnd Hpos) as (g' & st' & Hrun & Hinv' & Hle).
      exists g', st'. rewrite (cons_middle chunk), app_assoc.
      split; [done|]. split; [done|lia].
Qed.

Lemma buffer_keys g rcvd st :
  buffer_inv g rcvd st →
  ID <$> (map_to_list (chunks st)).*2 = (map_to_list (chunks st)).*1.
Proof.
  intros Hinv. rewrite <- list_fmap_compose. apply Forall_fmap_ext, Forall_forall.
  intros [k c] Hin. apply elem_of_map_to_list in Hin. simpl.
  by destruct (inv_keys _ _ _ Hinv _ _ Hin).
Qed.

Lemma buffer_values (m : gmap Z LocationChunk) :
  (λ k, default (mkChunk 0 []) (m !! k)) <$> (map_to_list m).*1 = (map_to_list m).*2.
Proof.
  rewrite <- list_fmap_compose. apply Forall_fmap_ext, Forall_forall.
  intros [k c] Hin. apply elem_of_map_to_list in Hin. simpl. by rewrite Hin.
Qed.

Lemma flush_ids_in_range (ids : list Z) : ∀ st,
  Forall (λ k, ∃ c, chunks st !! k = Some c ∧ chunk_in_range c) ids →
  ∃ st', flush_ids pair patterns st ids = Some st' ∧
    flushed st' = flushed st ++ ((λ k, default (mkChunk 0 []) (chunks st !! k)) <$> ids).
Proof.
  induction ids as [|k ids IH]; intros st Hids; simpl.
  - exists st. by rewrite app_nil_r.
  - apply Forall_cons in Hids as [(c & Hc & Hr) Hids]. rewrite Hc. simpl.
    destruct (flush_in_range st c Hr) as (lines & _ & ->). simpl.
    destruct (IH (mkReceiver (id st) (chunks st) (outfh st ++ lines) (flushed st ++ [c])) Hids)
      as (st' & -> & Hfl).
    exists st'. split; [done|]. rewrite Hfl. simpl. by rewrite <- app_assoc.
Qed.

Lemma drain_flush_ids (st : Receiver) :
  drain pair patterns st = flush_ids pair patterns st (sortLocationChunkMapID (chunks st)).
Proof.
  unfold drain. case_decide as Hsize; [done|].
  assert (chunks st = ∅) as -> by (apply map_size_empty_iff; lia).
  unfold sortLocationChunkMapID. by rewrite map_to_list_empty.
Qed.

Lemma drain_inv g rcvd st (n : nat) :
  buffer_inv g rcvd st → Forall chunk_in_range rcvd →
  ID <$> rcvd ≡ₚ seqZ 0 (Z.of_nat n) →
  ∃ st', drain pair patterns st = Some st' ∧
    ID <$> flushed st' = seqZ 0 (Z.of_nat n) ∧ flushed st' ≡ₚ rcvd.
Proof.
  intros Hinv Hrange Hperm. pose proof (inv_nonneg _ _ _ Hinv) as Hg.
  set (keys := (map_to_list (chunks st)).*1).
  assert (seqZ 0 g ++ keys ≡ₚ seqZ 0 (Z.of_nat n)) as Hall.
  { rewrite <- Hperm, <- (inv_perm _ _ _ Hinv), fmap_app.
    by rewrite (inv_flushed _ _ _ Hinv), (buffer_keys _ _ _ Hinv). }
  assert (g ≤ Z.of_nat n) as Hgn.
  { apply Permutation_length in Hall.
    rewrite length_app, !length_seqZ in Hall. lia. }
  rewrite (seqZ_split g (Z.of_nat n)) in Hall by lia.
  apply Permutation_app_inv_l in Hall.
  assert (sortLocationChunkMapID (chunks st) = seqZ g (Z.of_nat n - g)) as Hsorted.
  { apply (Sorted_unique Z.le).
    - apply Sorted_merge_sort, _.
    - apply Sorted_seqZ.
    - unfold sortLocationChunkMapID. by rewrite merge_sort_Permutation. }
  rewrite drain_flush_ids.
  destruct (flush_ids_in_range (sortLocationChunkMapID (chunks st)) st) as (st' & -> & Hfl).
  { apply Forall_forall. intros k Hk.
    assert (k ∈ keys) as Hin.
    { unfold sortLocationChunkMapID in Hk. by rewrite merge_sort_Permutation in Hk. }
    apply list_elem_of_fmap in Hin as ([k' c] & -> & Hin).
    apply elem_of_map_to_list in Hin. exists c. split; [done|].
    rewrite Forall_forall in Hrange. eauto using buffered_arrived. }
  exists st'. split; [done|]. rewrite Hfl. split.
  - rewrite fmap_app, (inv_flushed _ _ _ Hinv), (seqZ_split g (Z.of_nat n)) by lia.
    f_equal. rewrite <- Hsorted, <- list_fmap_compose.
    etrans; [|apply list_fmap_id].
    apply Forall_fmap_ext, Forall_forall. intros k Hk. simpl.
    assert (k ∈ keys) as Hin.
    { unfold sortLocationChunkMapID in Hk. by rewrite merge_sort_Permutation in Hk. }
    apply list_elem_of_fmap in Hin as ([k' c] & -> & Hin).
    apply elem_of_map_to_list in Hin. simpl. rewrite Hin. simpl.
    by destruct (inv_keys _ _ _ Hinv _ _ Hin).
  - rewrite <- (inv_perm _ _ _ Hinv). apply Permutation_app_head.
    rewrite <- buffer_values. apply fmap_Permutation.
    unfold sortLocationChunkMapID. apply merge_sort_Permutation.
Qed.

Lemma out_inv_flush st chunk st' :
  out_inv pair patterns st →
  flush pair patterns st chunk = Some st'
  → out_inv pair patterns st'.
Proof.
  intros (ls & Hls & Hout) Hfl. unfold flush in Hfl.
  destruct (write_chunk pair patterns chunk) as [lines|] eqn:Hl; [|done].
  simpl in Hfl. injection Hfl as <-. exists (ls ++ [lines]). simpl. split.
  - apply mapM_Some. apply mapM_Some in Hls.
    apply Forall2_app; [done|]. by constructor.
  - rewrite Hout, concat_app. simpl. by rewrite app_nil_r.
Qed.

Lemma out_inv_check_buffered fuel : ∀ st st',
  out_inv pair patterns st →
  check_buffered pair patterns fuel st = Some st'
  → out_inv pair patterns st'.
Proof.
  induction fuel as [|fuel IH]; intros st st' Hout Hrun; simpl in Hrun.
  - destruct (chunks st !! id st); [done|]. by injection Hrun as <-.
  - destruct (chunks st !! id st) as [c|]; [|by injection Hrun as <-].
    destruct (flush pair patterns st c) as [st1|] eqn:Hfl; [|done]. simpl in Hrun.
    eapply IH; [|exact Hrun].
    destruct (out_inv_flush _ _ _ Hout Hfl) as (ls & ? & ?). by exists ls.
Qed.

Lemma out_inv_receive_chunk st chunk st' :
  out_inv pair patterns st →
  receive_chunk pair patterns st chunk = Some st'
  → out_inv pair patterns st'.
Proof.
  intros Hout Hrun. unfold receive_chunk in Hrun. case_decide.
  - destruct (flush pair patterns st chunk) as [st1|] eqn:Hfl; [|done].
    simpl in Hrun. injection Hrun as <-.
    destruct (out_inv_flush _ _ _ Hout Hfl) as (ls & ? & ?). by exists ls.
  - destruct (check_buffered pair patterns (size (chunks st)) st) as [st1|] eqn:Hcb; [|done].
    simpl in Hrun. injection Hrun as <-.
    destruct (out_inv_check_buffered _ _ _ Hout Hcb) as (ls & ? & ?). by exists ls.
Qed.

Lemma out_inv_receive ch : ∀ st st',
  out_inv pair patterns st →
  receive pair patterns st ch = Some st'
  → out_inv pair patterns st'.
Proof.
  induction ch as [|chunk ch IH]; intros st st' Hout Hrun; simpl in Hrun.
  - by injection Hrun as <-.
  - destruct (receive_chunk pair patterns st chunk) as [st1|] eqn:H1; [|done].
    simpl in Hrun. eauto using out_inv_receive_chunk.
Qed.

Lemma out_inv_flush_ids ids : ∀ st st',
  out_inv pair patterns st →
  flush_ids pair patterns st ids = Some st'
  → out_inv pair patterns st'.
Proof.
  induction ids as [|k ids IH]; intros st st' Hout Hrun; simpl in Hrun.
  - by injection Hrun as <-.
  - destruct (flush pair patterns st _) as [st1|] eqn:H1; [|done].
    simpl in Hrun. eauto using out_inv_flush.
Qed.

Lemma out_inv_receiver ch st :
  receiver pair patterns ch = Some st → out_inv pair patterns st.
Proof.
  unfold receiver. intros Hrun.
  destruct (receive pair patterns receiver_start ch) as [st1|] eqn:H1; [|done].
  simpl in Hrun. rewrite drain_flush_ids in Hrun.
  eapply out_inv_flush_ids; [|exact Hrun].
  eapply out_inv_receive; [|exact H1]. by exists [].
Qed.

Lemma receiver_sorted (arrivals : list LocationChunk) (n : nat) :
  ID <$> arrivals ≡ₚ seqZ 0 (Z.of_nat n) → Forall chunk_in_range arrivals →
  ∃ st, receiver pair patterns arrivals = Some st ∧
    ID <$> flushed st = seqZ 0 (Z.of_nat n) ∧ flushed st ≡ₚ arrivals.
Proof.
  intros Hperm Hrange. unfold receiver.
  destruct (receive_inv arrivals 0 [] receiver_start buffer_inv_start)
    as (g & st & -> & Hinv & _); simpl.
  - done.
  - rewrite Hperm. apply NoDup_seqZ.
  - apply Forall_forall. intros c Hc.
    assert (ID c ∈ seqZ 0 (Z.of_nat n))
      as Hin by (rewrite <- Hperm; by apply list_elem_of_fmap_2).
    apply elem_of_seqZ in Hin. lia.
  - by apply (drain_inv g).
Qed.
End ReceiverFacts.

(** ** The worker *)

Section WorkerFacts.
Variable pair : byte → byte.
Variable Regexp : Type.
Variable FindAllSubmatchIndex : Regexp → bytes → list (Z * Z).
Variable onlyPositiveStrand : bool.

Lemma locate_pattern_app record locations entry :
  locate_pattern pair Regexp FindAllSubmatchIndex onlyPositiveStrand record locations entry
  = locations ++ forward_matches Regexp FindAllSubmatchIndex record entry
    ++ reverse_matches pair Regexp FindAllSubmatchIndex onlyPositiveStrand record entry.
Proof.
  unfold locate_pattern, forward_matches, reverse_matches. simpl.
  destruct onlyPositiveStrand; repeat case_decide;
    rewrite ?app_nil_r, <- ?app_assoc; done.
Qed.

Lemma locate_record_app order : ∀ record locations,
  locate_record pair Regexp FindAllSubmatchIndex onlyPositiveStrand order record locations
  = locations ++
    locate_record pair Regexp FindAllSubmatchIndex onlyPositiveStrand order record [].
Proof.
  unfold locate_record.
  induction order as [|entry order IH]; intros record locations; simpl.
  - by rewrite app_nil_r.
  - rewrite IH, (IH _ (locate_pattern _ _ _ _ _ [] _)), !locate_pattern_app.
    simpl. by rewrite <- !app_assoc.
Qed.

Lemma locate_record_snoc order entry record :
  locate_record pair Regexp FindAllSubmatchIndex onlyPositiveStrand (order ++ [entry]) record []
  = locate_record pair Regexp FindAllSubmatchIndex onlyPositiveStrand order record []
    ++ forward_matches Regexp FindAllSubmatchIndex record entry
      ++ reverse_matches pair Regexp FindAllSubmatchIndex onlyPositiveStrand record entry.
Proof. unfold locate_record. by rewrite foldl_snoc, locate_pattern_app. Qed.

Lemma locate_record_cons order entry record :
  locate_record pair Regexp FindAllSubmatchIndex onlyPositiveStrand (entry :: order) record []
  = (forward_matches Regexp FindAllSubmatchIndex record entry
    ++ reverse_matches pair Regexp FindAllSubmatchIndex onlyPositiveStrand record entry)
    ++ locate_record pair Regexp FindAllSubmatchIndex onlyPositiveStrand order record [].
Proof.
  rewrite <- locate_record_app. unfold locate_record. simpl.
  by rewrite locate_pattern_app.
Qed.

Lemma locate_records_app records : ∀ iter i locations,
  locate_records pair Regexp FindAllSubmatchIndex onlyPositiveStrand iter i records locations
  = locations ++
    concat (imap (λ j record,
              locate_record pair Regexp FindAllSubmatchIndex onlyPositiveStrand
                (iter (i + j)%nat) record []) records).
Proof.
  induction records as [|record records IH]; intros iter i locations; simpl.
  - by rewrite app_nil_r.
  - rewrite IH, locate_record_app, <- app_assoc, Nat.add_0_r. do 3 f_equal.
    apply imap_ext. intros j r _. simpl. by rewrite Nat.add_succ_r.
Qed.

Lemma worker_Data iter chunk :
  Data (worker pair Regexp FindAllSubmatchIndex onlyPositiveStrand iter chunk)
  = concat (imap (λ j record,
              locate_record pair Regexp FindAllSubmatchIndex onlyPositiveStrand
                (iter j) record []) (fcData chunk)).
Proof. unfold worker. simpl. by rewrite locate_records_app. Qed.

(** The entries found for a record: which pattern, which strand, which
    locations. *)
Lemma elem_of_locate_record order record info :
  info ∈ locate_record pair Regexp FindAllSubmatchIndex onlyPositiveStrand order record [] ↔
  ∃ entry, entry ∈ order ∧
    (info ∈ forward_matches Regexp FindAllSubmatchIndex record entry ∨
     info ∈ reverse_matches pair Regexp FindAllSubmatchIndex onlyPositiveStrand record entry).
Proof.
  induction order as [|entry order IH].
  - split; [by intros ?%elem_of_nil|]. by intros (? & ?%elem_of_nil & _).
  - rewrite locate_record_cons, !elem_of_app, IH. split.
    + intros [[?|?]|(e & ? & ?)].
      * exists entry. split; [left|by left].
      * exists entry. split; [left|by right].
      * exists e. split; [by right|done].
    + intros (e & [->|?]%elem_of_cons & He); [tauto|]. right. by exists e.
Qed.

Lemma forward_matches_spec record entry info :
  info ∈ forward_matches Regexp FindAllSubmatchIndex record entry ↔
  info = mkInfo record entry.1 1 (FindAllSubmatchIndex entry.2 (rcSeq record)) ∧
  FindAllSubmatchIndex entry.2 (rcSeq record) ≠ [].
Proof.
  unfold forward_matches. simpl.
  destruct (FindAllSubmatchIndex entry.2 (rcSeq record)) as [|loc found]; simpl.
  - rewrite elem_of_nil. tauto.
  - rewrite list_elem_of_singleton. split; [done|tauto].
Qed.

Lemma reverse_matches_spec record entry info :
  info ∈ reverse_matches pair Regexp FindAllSubmatchIndex onlyPositiveStrand record entry ↔
  onlyPositiveStrand = false ∧
  info = mkInfo record entry.1 (-1)
           ((λ loc : Z * Z,
               (Z.of_nat (length (RevCom pair (rcSeq record))) - loc.2,
                Z.of_nat (length (RevCom pair (rcSeq record))) - loc.1))
              <$> FindAllSubmatchIndex entry.2 (RevCom pair (rcSeq record))) ∧
  FindAllSubmatchIndex entry.2 (RevCom pair (rcSeq record)) ≠ [].
Proof.
  unfold reverse_matches. simpl. destruct onlyPositiveStrand.
  { rewrite elem_of_nil. split; [done|]. by intros [? _]. }
  destruct (FindAllSubmatchIndex entry.2 (RevCom pair (rcSeq record))) as [|loc found]; simpl.
  - rewrite elem_of_nil. tauto.
  - rewrite list_elem_of_singleton. split; [done|tauto].
Qed.

(** Within what one pattern adds, the forward entry comes first. *)
Lemma pattern_block_order record entry (i j : nat) (li lj : LocationInfo) :
  (forward_matches Regexp FindAllSubmatchIndex record entry
    ++ reverse_matches pair Regexp FindAllSubmatchIndex onlyPositiveStrand record entry)
    !! i = Some li →
  (forward_matches Regexp FindAllSubmatchIndex record entry
    ++ reverse_matches pair Regexp FindAllSubmatchIndex onlyPositiveStrand record entry)
    !! j = Some lj →
  (i < j)%nat → Strand li = 1 ∧ Strand lj = -1.
Proof.
  unfold forward_matches, reverse_matches.
  destruct onlyPositiveStrand; repeat case_decide; simpl;
    destruct i as [|[|i]], j as [|[|j]]; simpl; intros Hi Hj Hlt;
    try lia; try done; by simplify_eq.
Qed.

Lemma pattern_block_name record entry info :
  info ∈ forward_matches Regexp FindAllSubmatchIndex record entry
    ++ reverse_matches pair Regexp FindAllSubmatchIndex onlyPositiveStrand record entry →
  PatternName info = entry.1 ∧ Record_ info = record.
Proof.
  rewrite elem_of_app, forward_matches_spec, reverse_matches_spec.
  intros [[-> _]|(_ & -> & _)]; done.
Qed.

Lemma located_pattern_position order record info :
  info ∈ locate_record pair Regexp FindAllSubmatchIndex onlyPositiveStrand order record [] →
  ∃ p : nat, order.*1 !! p = Some (PatternName info).
Proof.
  rewrite elem_of_locate_record. intros (entry & Hentry & Hinfo).
  apply list_elem_of_lookup in Hentry as [p Hp]. exists p.
  rewrite list_lookup_fmap, Hp. simpl. f_equal. symmetry.
  by apply (pattern_block_name record), elem_of_app.
Qed.

(** ** Coordinates and the printed text *)

Variable patterns : gmap string bytes.

Lemma RevCom_length (s : bytes) : length (RevCom pair s) = length s.
Proof. unfold RevCom. by rewrite length_rev, length_map. Qed.

Lemma RevCom_take_drop (s : bytes) (na nb : nat) :
  (na ≤ nb ≤ length s)%nat →
  RevCom pair (take (nb - na) (drop (length s - nb) s))
  = take (nb - na) (drop na (RevCom pair s)).
Proof.
  intros Hn. unfold RevCom.
  rewrite <- firstn_map, <- skipn_map, <- (length_map pair s).
  rewrite <- (length_map pair s) in Hn.
  generalize dependent (map pair s). clear s. intros s Hn.
  rewrite skipn_rev, firstn_rev, length_take, firstn_skipn_comm.
  do 2 f_equal; [lia|]. f_equal. lia.
Qed.

Lemma RevCom_slice (s : bytes) (a b : Z) :
  0 ≤ a ∧ a ≤ b ∧ b ≤ Z.of_nat (length s) →
  RevCom pair <$> slice s (Z.of_nat (length s) - b) (Z.of_nat (length s) - a)
  = slice (RevCom pair s) a b.
Proof.
  intros Hab. rewrite !slice_in_range by (rewrite ?RevCom_length; lia). simpl. f_equal.
  replace (Z.to_nat (Z.of_nat (length s) - a - (Z.of_nat (length s) - b)))
    with (Z.to_nat b - Z.to_nat a)%nat by lia.
  replace (Z.to_nat (Z.of_nat (length s) - b)) with (length s - Z.to_nat b)%nat by lia.
  replace (Z.to_nat (b - a)) with (Z.to_nat b - Z.to_nat a)%nat by lia.
  apply RevCom_take_drop. lia.
Qed.

Lemma slice_length (s : bytes) (a b : Z) (t : bytes) :
  slice s a b = Some t → Z.of_nat (length t) = b - a.
Proof.
  unfold slice. case_decide as Hab; [|done]. intros [= <-].
  rewrite length_take, length_drop. lia.
Qed.

(** The row of a location within the sequence.  Its text has as many
    letters as the location is wide, on the forward strand and, on the
    reverse strand, when the location does not end at 0. *)
Lemma write_location_in_range (info : LocationInfo) (loc : Z * Z) :
  0 ≤ loc.1 ∧ loc.1 ≤ loc.2 ∧ loc.2 ≤ Z.of_nat (length (rcSeq (Record_ info))) →
  ∃ s, matched_text pair info loc = Some s ∧
    (Strand info = 1 ∨ 1 ≤ loc.2 → Z.of_nat (length s) = loc.2 - loc.1) ∧
    write_location pair patterns info loc
    = Some (Match (mkRow (rcID (Record_ info)) (PatternName info)
                         (default [] (patterns !! PatternName info))
                         (Strand info) (loc.1 + 1) loc.2 s)).
Proof.
  intros Hloc. destruct (matched_text_in_range pair info loc Hloc) as [s Hs].
  exists s. split; [done|]. split.
  - intros Hcase. unfold matched_text, SubSeq in Hs. case_decide as Hstrand.
    + by apply slice_length in Hs.
    + rewrite decide_False in Hs by (destruct Hcase; [done|lia]).
      destruct (slice _ _ _) as [t|] eqn:Ht; [|done]. simpl in Hs.
      injection Hs as <-. apply slice_length in Ht. rewrite RevCom_length. lia.
  - unfold write_location. by rewrite Hs.
Qed.

(** The text printed for a match [a, b) found in the reverse complement:
    the letters [a, b) of the reverse complement, unless the match is the
    empty one at its end.  That match is stored as [0, 0], for which
    [SubSeq(1, 0)] gives the whole sequence. *)
Lemma reverse_text (record : FastaRecord) (pName : string)
    (tlocs : list (Z * Z)) (a b : Z) :
  0 ≤ a ∧ a ≤ b ∧ b ≤ Z.of_nat (length (rcSeq record)) →
  matched_text pair (mkInfo record pName (-1) tlocs)
    (Z.of_nat (length (rcSeq record)) - b, Z.of_nat (length (rcSeq record)) - a)
  = if decide (a = Z.of_nat (length (rcSeq record)))
    then Some (RevCom pair (rcSeq record))
    else slice (RevCom pair (rcSeq record)) a b.
Proof.
  intros Hab. unfold matched_text, SubSeq. simpl. rewrite Z.add_simpl_r.
  destruct (decide (a = Z.of_nat (length (rcSeq record)))) as [->|Ha].
  - rewrite decide_True by lia. replace b with (Z.of_nat (length (rcSeq record))) by lia.
    rewrite Z.sub_diag, slice_in_range by lia. simpl.
    by rewrite Z.sub_0_r, Nat2Z.id, firstn_all.
  - rewrite decide_False by lia. by apply RevCom_slice.
Qed.

(** C4: a forward match of span [a, b) is reported with strand 1,
    start a+1 and end b; a match of span [a, b) on the reverse
    complement is stored as [L-b, L-a) and reported with strand -1,
    start L-b+1 and end L-a. *)
Theorem strand_coordinates (order : list (string * Regexp)) (record : FastaRecord)
    (locations : list LocationInfo) (entry : string * Regexp) (a b : Z) :
  entry ∈ order →
  0 ≤ a ∧ a ≤ b ∧ b ≤ Z.of_nat (length (rcSeq record)) →
  ((a, b) ∈ FindAllSubmatchIndex entry.2 (rcSeq record) →
   ∃ info row,
     info ∈ locate_record pair Regexp FindAllSubmatchIndex onlyPositiveStrand
              order record locations ∧
     Record_ info = record ∧ PatternName info = entry.1 ∧
     (a, b) ∈ Locations info ∧
     write_location pair patterns info (a, b) = Some (Match row) ∧
     strand row = 1 ∧ start row = a + 1 ∧ end_ row = b) ∧
  (onlyPositiveStrand = false →
   (a, b) ∈ FindAllSubmatchIndex entry.2 (RevCom pair (rcSeq record)) →
   ∃ info row,
     info ∈ locate_record pair Regexp FindAllSubmatchIndex onlyPositiveStrand
              order record locations ∧
     Record_ info = record ∧ PatternName info = entry.1 ∧
     (Z.of_nat (length (rcSeq record)) - b, Z.of_nat (length (rcSeq record)) - a)
       ∈ Locations info ∧
     write_location pair patterns info
       (Z.of_nat (length (rcSeq record)) - b, Z.of_nat (length (rcSeq record)) - a)
     = Some (Match row) ∧
     strand row = -1 ∧
     start row = Z.of_nat (length (rcSeq record)) - b + 1 ∧
     end_ row = Z.of_nat (length (rcSeq record)) - a).
Proof.
  intros Hentry Hab. split.
  - intros Hfound.
    set (info := mkInfo record entry.1 1 (FindAllSubmatchIndex entry.2 (rcSeq record))).
    destruct (write_location_in_range info (a, b)) as (s & _ & _ & Hrow); [done|].
    exists info. eexists. split; [|by rewrite Hrow].
    rewrite locate_record_app. apply elem_of_app. right.
    apply elem_of_locate_record. exists entry. split; [done|]. left.
    apply forward_matches_spec. split; [done|]. intros Hnil.
    rewrite Hnil in Hfound. by apply elem_of_nil in Hfound.
  - intros Honly Hfound.
    set (L := Z.of_nat (length (rcSeq record))).
    set (info := mkInfo record entry.1 (-1)
           ((λ loc : Z * Z, (Z.of_nat (length (RevCom pair (rcSeq record))) - loc.2,
                             Z.of_nat (length (RevCom pair (rcSeq record))) - loc.1))
              <$> FindAllSubmatchIndex entry.2 (RevCom pair (rcSeq record)))).
    destruct (write_location_in_range info (L - b, L - a)) as (s & _ & _ & Hrow);
      [simpl; lia|].
    exists info. eexists. split; [|split; [done|split; [done|split]]].
    + rewrite locate_record_app. apply elem_of_app. right.
      apply elem_of_locate_record. exists entry. split; [done|]. right.
      apply reverse_matches_spec. split; [done|]. split; [done|]. intros Hnil.
      rewrite Hnil in Hfound. by apply elem_of_nil in Hfound.
    + simpl. apply list_elem_of_fmap. exists (a, b). split; [|done].
      simpl. by rewrite RevCom_length.
    + by rewrite Hrow.
Qed.

(** C8: in the entries a worker produces for one record, the patterns
    appear in the order in which the map was visited, and for one
    pattern the forward entry (strand 1) precedes the reverse entry
    (strand -1). *)
Theorem intra_record_order (order : list (string * Regexp)) (record : FastaRecord)
    (i j : nat) (li lj : LocationInfo) :
  locate_record pair Regexp FindAllSubmatchIndex onlyPositiveStrand order record [] !! i
    = Some li →
  locate_record pair Regexp FindAllSubmatchIndex onlyPositiveStrand order record [] !! j
    = Some lj →
  (i < j)%nat →
  ∃ pi pj : nat,
    order.*1 !! pi = Some (PatternName li) ∧ order.*1 !! pj = Some (PatternName lj) ∧
    (pi ≤ pj)%nat ∧ (pi = pj → Strand li = 1 ∧ Strand lj = -1).
Proof.
  revert record i j li lj.
  induction order as [|entry order IH] using rev_ind; intros record i j li lj Hi Hj Hlt.
  - done.
  - rewrite locate_record_snoc in Hi, Hj.
    set (old := locate_record pair Regexp FindAllSubmatchIndex onlyPositiveStrand
                  order record []) in *.
    apply lookup_app_Some in Hj as [Hj|[Hjge Hj]].
    + (* both entries come from earlier patterns *)
      assert (old !! i = Some li) as Hi'.
      { apply lookup_lt_Some in Hj. rewrite lookup_app_l in Hi by lia. done. }
      destruct (IH record i j li lj Hi' Hj Hlt) as (pi & pj & Hpi & Hpj & Hle & Heq).
      exists pi, pj. rewrite fmap_app.
      split; [by apply lookup_app_l_Some|]. split; [by apply lookup_app_l_Some|]. done.
    + apply lookup_app_Some in Hi as [Hi|[Hige Hi]].
      * (* an earlier pattern, then the last pattern *)
        destruct (located_pattern_position order record li) as [pi Hpi].
        { eapply list_elem_of_lookup_2, Hi. }
        exists pi, (length order). rewrite fmap_app.
        pose proof (lookup_lt_Some _ _ _ Hpi) as Hlen. rewrite length_fmap in Hlen.
        split; [by apply lookup_app_l_Some|]. split.
        { rewrite lookup_app_r by (rewrite length_fmap; lia).
          rewrite length_fmap, Nat.sub_diag. simpl. f_equal. symmetry.
          eapply (pattern_block_name record), list_elem_of_lookup_2, Hj. }
        split; [lia|]. lia.
      * (* both entries come from the last pattern *)
        exists (length order), (length order). rewrite fmap_app.
        assert (∀ info, info ∈ forward_matches Regexp FindAllSubmatchIndex record entry
          ++ reverse_matches pair Regexp FindAllSubmatchIndex onlyPositiveStrand record entry →
                  (order.*1 ++ [entry].*1) !! length order = Some (PatternName info)) as Hpos.
        { intros info Hinfo. rewrite lookup_app_r by (rewrite length_fmap; lia).
          rewrite length_fmap, Nat.sub_diag. simpl. f_equal. symmetry.
          by apply (pattern_block_name record). }
        split; [eapply Hpos, list_elem_of_lookup_2, Hi|].
        split; [eapply Hpos, list_elem_of_lookup_2, Hj|].
        split; [done|]. intros _.
        eapply pattern_block_order; [exact Hi|exact Hj|lia].
Qed.

Section WorkerContract.
(** What [FindAllSubmatchIndex] promises: every match lies within the
    text that was searched. *)
Hypothesis FindAll_in_range : ∀ re s,
  Forall (λ loc : Z * Z, 0 ≤ loc.1 ∧ loc.1 ≤ loc.2 ∧ loc.2 ≤ Z.of_nat (length s))
         (FindAllSubmatchIndex re s).

Lemma located_in_range order record info :
  info ∈ locate_record pair Regexp FindAllSubmatchIndex onlyPositiveStrand order record [] →
  Record_ info = record ∧ info_in_range info ∧ Locations info ≠ [].
Proof.
  rewrite elem_of_locate_record. intros (entry & _ & [Hf|Hr]).
  - apply forward_matches_spec in Hf as [-> Hne]. split; [done|]. split; [|done].
    apply FindAll_in_range.
  - apply reverse_matches_spec in Hr as (_ & -> & Hne). split; [done|]. split.
    + unfold info_in_range. simpl. apply Forall_fmap.
      eapply Forall_impl; [apply FindAll_in_range|].
      intros [a b]. simpl. rewrite RevCom_length. lia.
    + simpl. intros Hnil. by apply fmap_nil_inv in Hnil.
Qed.

Lemma worker_in_range iter chunk :
  chunk_in_range (worker pair Regexp FindAllSubmatchIndex onlyPositiveStrand iter chunk).
Proof.
  unfold chunk_in_range. rewrite worker_Data. apply Forall_concat, Forall_forall.
  intros block (j & record & -> & _)%elem_of_lookup_imap.
  apply Forall_forall. intros info Hinfo.
  by destruct (located_in_range _ _ _ Hinfo) as (_ & ? & _).
Qed.

(** C7 (amended): every row printed for a match of a worker has
    1 <= start and end <= L, and has start <= end exactly when the span
    of the match is not empty; a match of width zero is printed with
    start = end + 1.  The text shown has end - start + 1 letters in every
    forward row and in every reverse row whose end is at least 1. *)
Theorem row_coordinates (order : list (string * Regexp)) (record : FastaRecord)
    (info : LocationInfo) (loc : Z * Z) :
  info ∈ locate_record pair Regexp FindAllSubmatchIndex onlyPositiveStrand order record [] →
  loc ∈ Locations info →
  ∃ row, write_location pair patterns info loc = Some (Match row) ∧
    start row = loc.1 + 1 ∧ end_ row = loc.2 ∧
    1 ≤ start row ∧ end_ row ≤ Z.of_nat (length (rcSeq record)) ∧
    (strand row = 1 ∨ 1 ≤ end_ row →
     end_ row - start row + 1 = Z.of_nat (length (matched row))) ∧
    (start row ≤ end_ row ↔ loc.1 < loc.2) ∧
    (loc.1 = loc.2 → start row = end_ row + 1).
Proof.
  intros Hinfo Hloc.
  destruct (located_in_range _ _ _ Hinfo) as (Hrec & Hrange & _).
  unfold info_in_range in Hrange. rewrite Forall_forall in Hrange.
  specialize (Hrange loc Hloc). rewrite Hrec in Hrange.
  destruct (write_location_in_range info loc) as (s & _ & Hlen & ->).
  { by rewrite Hrec. }
  eexists. split; [done|]. simpl.
  split; [reflexivity|]. split; [reflexivity|]. split; [lia|]. split; [lia|].
  split; [intros Hcase; specialize (Hlen Hcase); lia|].
  split; [split; lia|lia].
Qed.
End WorkerContract.
End WorkerFacts.

(** ** The pipeline *)

Section PipelineFacts.
Variable pair : byte → byte.
Variable Regexp : Type.
Variable FindAllSubmatchIndex : Regexp → bytes → list (Z * Z).
Variable onlyPositiveStrand : bool.
Variable patterns : gmap string bytes.

Lemma coordinator_step_keeps threads iter s s' :
  coordinator_step pair Regexp FindAllSubmatchIndex onlyPositiveStrand threads iter s s' →
  in_pipeline pair Regexp FindAllSubmatchIndex onlyPositiveStrand iter s'
  ≡ₚ in_pipeline pair Regexp FindAllSubmatchIndex onlyPositiveStrand iter s.
Proof.
  intros [chunk rest run out Hfree|rest run1 result run2 out]; unfold in_pipeline; simpl.
  - by rewrite <- !app_assoc.
  - rewrite <- !app_assoc. apply Permutation_app_head. simpl.
    by rewrite Permutation_middle.
Qed.

Lemma coordinator_steps_keep threads iter s s' :
  rtc (coordinator_step pair Regexp FindAllSubmatchIndex onlyPositiveStrand threads iter) s s' →
  in_pipeline pair Regexp FindAllSubmatchIndex onlyPositiveStrand iter s'
  ≡ₚ in_pipeline pair Regexp FindAllSubmatchIndex onlyPositiveStrand iter s.
Proof.
  induction 1 as [|s1 s2 s3 Hstep _ IH]; [done|].
  by rewrite IH, (coordinator_step_keeps _ _ _ _ Hstep).
Qed.

(** Nothing is lost or made up on the way to [ch]. *)
Lemma pipeline_arrivals threads iter input arrivals :
  pipeline_run pair Regexp FindAllSubmatchIndex onlyPositiveStrand threads iter input arrivals →
  arrivals ≡ₚ results pair Regexp FindAllSubmatchIndex onlyPositiveStrand iter input.
Proof.
  intros Hrun. apply coordinator_steps_keep in Hrun.
  unfold in_pipeline in Hrun. simpl in Hrun. by rewrite app_nil_r in Hrun.
Qed.

(** With at least one token the pipeline can always finish; one such
    run sends the results in the order of the input. *)
Lemma pipeline_run_in_order threads iter input :
  (0 < threads)%nat →
  pipeline_run pair Regexp FindAllSubmatchIndex onlyPositiveStrand threads iter input
    (results pair Regexp FindAllSubmatchIndex onlyPositiveStrand iter input).
Proof.
  intros Hthreads. unfold pipeline_run.
  assert (∀ out, rtc (coordinator_step pair Regexp FindAllSubmatchIndex
                        onlyPositiveStrand threads iter)
                     (mkCoordinator input [] out)
                     (mkCoordinator [] []
                        (out ++ results pair Regexp FindAllSubmatchIndex
                                  onlyPositiveStrand iter input)))
    as Hgen.
  { induction input as [|chunk input IH]; intros out; simpl.
    - rewrite app_nil_r. constructor.
    - eapply rtc_l; [by apply step_dispatch|]. simpl.
      eapply rtc_l; [apply (step_send _ _ _ _ _ _ _ [] _ [])|]. simpl.
      specialize (IH (out ++ [worker pair Regexp FindAllSubmatchIndex
                                onlyPositiveStrand (iter (fcID chunk)) chunk])).
      by rewrite <- app_assoc in IH. }
  apply (Hgen []).
Qed.

(** With one token the workers run one after the other: the results are
    sent in the order of the input. *)
Lemma single_worker_steps iter s s' :
  rtc (coordinator_step pair Regexp FindAllSubmatchIndex onlyPositiveStrand 1 iter) s s' →
  (length (running s) ≤ 1)%nat →
  (length (running s') ≤ 1)%nat ∧
  in_pipeline pair Regexp FindAllSubmatchIndex onlyPositiveStrand iter s'
  = in_pipeline pair Regexp FindAllSubmatchIndex onlyPositiveStrand iter s.
Proof.
  induction 1 as [|s1 s2 s3 Hstep _ IH]; intros Hlen; [done|].
  assert ((length (running s2) ≤ 1)%nat ∧
          in_pipeline pair Regexp FindAllSubmatchIndex onlyPositiveStrand iter s2
          = in_pipeline pair Regexp FindAllSubmatchIndex onlyPositiveStrand iter s1)
    as [Hlen2 Heq2].
  { destruct Hstep as [chunk rest run out Hfree|rest run1 result run2 out];
      unfold in_pipeline; simpl in *.
    - destruct run; simpl in *; [done|lia].
    - rewrite length_app in Hlen. simpl in Hlen.
      destruct run1, run2; simpl in *; try lia.
      split; [lia|]. by rewrite <- app_assoc. }
  destruct (IH Hlen2) as [Hlen3 Heq3]. split; [done|]. by rewrite Heq3.
Qed.

Lemma single_worker_arrivals iter input arrivals :
  pipeline_run pair Regexp FindAllSubmatchIndex onlyPositiveStrand 1 iter input arrivals →
  arrivals = results pair Regexp FindAllSubmatchIndex onlyPositiveStrand iter input.
Proof.
  intros Hrun. apply single_worker_steps in Hrun as [_ Heq]; [|simpl; lia].
  unfold in_pipeline in Heq. simpl in Heq. by rewrite app_nil_r in Heq.
Qed.

Lemma results_ID iter input :
  ID <$> results pair Regexp FindAllSubmatchIndex onlyPositiveStrand iter input
  = fcID <$> input.
Proof. unfold results. rewrite <- list_fmap_compose. done. Qed.

Lemma locate_record_nil order record :
  locate_record pair Regexp FindAllSubmatchIndex onlyPositiveStrand order record [] = [] ↔
  ∀ entry, entry ∈ order →
    FindAllSubmatchIndex entry.2 (rcSeq record) = [] ∧
    (onlyPositiveStrand = false →
     FindAllSubmatchIndex entry.2 (RevCom pair (rcSeq record)) = []).
Proof.
  split.
  - intros Hnil entry Hentry. split; [|intros Honly].
    + destruct (FindAllSubmatchIndex entry.2 (rcSeq record)) as [|loc found] eqn:Hf; [done|].
      exfalso. eapply elem_of_nil. rewrite <- Hnil.
      apply elem_of_locate_record. exists entry. split; [done|]. left.
      apply forward_matches_spec. split; [done|]. by rewrite Hf.
    + destruct (FindAllSubmatchIndex entry.2 (RevCom pair (rcSeq record)))
        as [|loc found] eqn:Hf; [done|].
      exfalso. eapply elem_of_nil. rewrite <- Hnil.
      apply elem_of_locate_record. exists entry. split; [done|]. right.
      apply reverse_matches_spec. split; [done|]. split; [done|]. by rewrite Hf.
  - intros Hnone.
    destruct (locate_record _ _ _ _ order record []) as [|info l] eqn:Hl; [done|].
    exfalso. assert (info ∈ info :: l) as Hin by left. rewrite <- Hl in Hin.
    apply elem_of_locate_record in Hin as (entry & Hentry & [Hf|Hr]).
    + apply forward_matches_spec in Hf as [_ Hne]. by destruct (Hnone entry Hentry).
    + apply reverse_matches_spec in Hr as (Honly & _ & Hne).
      destruct (Hnone entry Hentry) as [_ Hr]. by apply Hne, Hr.
Qed.

(** C1: when the chunks 0 .. n-1 arrive in any order, the receiver
    finishes and the chunks written, during reception and in the final
    sorted pass, are the chunks 0, 1, ..., n-1 in this order: the
    arrivals, each once. *)
Theorem flushed_in_sequence (arrivals : list LocationChunk) (n : nat) :
  ID <$> arrivals ≡ₚ seqZ 0 (Z.of_nat n) →
  Forall chunk_in_range arrivals →
  ∃ st, receiver pair patterns arrivals = Some st ∧
    ID <$> flushed st = seqZ 0 (Z.of_nat n) ∧
    flushed st ≡ₚ arrivals.
Proof.
  intros Hperm Hrange. unfold receiver.
  destruct (receive_inv pair patterns arrivals 0 [] receiver_start buffer_inv_start)
    as (g & st & -> & Hinv & _); simpl.
  - done.
  - rewrite Hperm. apply NoDup_seqZ.
  - apply Forall_forall. intros c Hc.
    assert (ID c ∈ seqZ 0 (Z.of_nat n))
      as Hin by (rewrite <- Hperm; by apply list_elem_of_fmap_2).
    apply elem_of_seqZ in Hin. lia.
  - by apply (drain_inv pair patterns g).
Qed.

(** C6 (amended): after any part [pre] of the arrivals, every buffered
    chunk sits under its own ID, which is at least [id]; no chunk still
    to arrive has an ID below [id]; the next chunk, when it is not the
    expected one, has an ID above [id], and when it is stored, after
    the buffered chunks have been checked, its ID is at least [id]. *)
Theorem buffered_not_below (arrivals pre post : list LocationChunk) (n : nat) :
  ID <$> arrivals ≡ₚ seqZ 0 (Z.of_nat n) →
  Forall chunk_in_range arrivals →
  arrivals = pre ++ post →
  ∃ st, receive pair patterns receiver_start pre = Some st ∧
    (∀ k c, chunks st !! k = Some c → ID c = k ∧ id st ≤ k) ∧
    (∀ chunk, chunk ∈ post → id st ≤ ID chunk) ∧
    (∀ chunk rest, post = chunk :: rest → ID chunk ≠ id st →
       id st < ID chunk ∧
       ∃ st1, check_buffered pair patterns (size (chunks st)) st = Some st1 ∧
              id st1 ≤ ID chunk).
Proof.
  intros Hperm Hrange ->.
  assert (NoDup (ID <$> pre ++ post)) as Hnd by (rewrite Hperm; apply NoDup_seqZ).
  assert (Forall (λ c, 0 ≤ ID c) (pre ++ post)) as Hpos.
  { apply Forall_forall. intros c Hc.
    assert (ID c ∈ seqZ 0 (Z.of_nat n)) as Hin
      by (rewrite <- Hperm; by apply list_elem_of_fmap_2).
    apply elem_of_seqZ in Hin. lia. }
  apply Forall_app in Hpos as [Hpos_pre Hpos_post].
  destruct (receive_inv pair patterns pre 0 [] receiver_start (buffer_inv_start))
    as (g & st & Hrun & Hinv & _); simpl.
  { by apply Forall_app in Hrange as [? _]. }
  { rewrite fmap_app in Hnd. by apply NoDup_app in Hnd as [? _]. }
  { done. }
  simpl in Hinv. exists st. split; [done|].
  pose proof (inv_nonneg _ _ _ Hinv) as Hg.
  assert (id st ≤ g) as Hid.
  { rewrite (inv_id _ _ _ Hinv). apply Z.mod_le; lia. }
  assert (∀ chunk, chunk ∈ post → ID chunk ∉ ID <$> pre) as Hfresh.
  { intros chunk Hin Hpre. rewrite fmap_app in Hnd.
    apply NoDup_app in Hnd as (_ & Hdisj & _).
    apply (Hdisj _ Hpre). by apply list_elem_of_fmap_2. }
  assert (∀ chunk, chunk ∈ post → g ≤ ID chunk) as Hfuture.
  { intros chunk Hin. eapply fresh_not_below; [exact Hinv|by apply Hfresh|].
    rewrite Forall_forall in Hpos_post. by apply Hpos_post. }
  split; [|split].
  - intros k c Hk. destruct (inv_keys _ _ _ Hinv _ _ Hk). split; [done|lia].
  - intros chunk Hin. specialize (Hfuture chunk Hin). lia.
  - intros chunk rest -> Hne.
    assert (chunk ∈ chunk :: rest) as Hin by left.
    specialize (Hfuture chunk Hin). split; [lia|].
    destruct (check_buffered_inv pair patterns (size (chunks st)) g pre st Hinv)
      as (g' & st1 & Hcb & Hinv1 & _); [by apply Forall_app in Hrange as [? _]|done|].
    exists st1. split; [done|].
    assert (g' ≤ ID chunk).
    { eapply fresh_not_below; [exact Hinv1|by apply Hfresh|].
      rewrite Forall_forall in Hpos_post. by apply Hpos_post. }
    pose proof (inv_nonneg _ _ _ Hinv1).
    rewrite (inv_id _ _ _ Hinv1).
    assert (g' mod 2 ^ 64 ≤ g') by (apply Z.mod_le; lia). lia.
Qed.

(** C2 (amended): a chunk with the expected ID is written and [id]
    incremented, and nothing else happens: buffered chunks stay in the
    buffer, also the one with the new [id].  They are written when a
    later chunk with another ID arrives, or in the final sorted pass.
    For the arrivals 2, 0, 1 the chunks 0 and 1 are written on
    reception and chunk 2 is still buffered when the channel closes; it
    is written in the final pass, so that the order is 0, 1, 2. *)
Theorem expected_chunk_without_cascade (st : Receiver) (chunk : LocationChunk)
    (data0 data1 data2 : list LocationInfo) :
  ID chunk = id st → chunk_in_range chunk →
  chunk_in_range (mkChunk 0 data0) → chunk_in_range (mkChunk 1 data1) →
  chunk_in_range (mkChunk 2 data2) →
  (∃ lines, write_chunk pair patterns chunk = Some lines ∧
     receive_chunk pair patterns st chunk
     = Some (mkReceiver (uint64_incr (id st)) (chunks st) (outfh st ++ lines)
                        (flushed st ++ [chunk]))) ∧
  (∃ st3, receive pair patterns receiver_start
            [mkChunk 2 data2; mkChunk 0 data0; mkChunk 1 data1] = Some st3 ∧
     id st3 = 2 ∧ flushed st3 = [mkChunk 0 data0; mkChunk 1 data1] ∧
     chunks st3 = {[2 := mkChunk 2 data2]} ∧
     ∃ st4, drain pair patterns st3 = Some st4 ∧
       flushed st4 = [mkChunk 0 data0; mkChunk 1 data1; mkChunk 2 data2]).
Proof.
  intros Hid Hchunk H0 H1 H2. split.
  - destruct (flush_in_range pair patterns st chunk Hchunk) as (lines & Hl & Hfl).
    exists lines. split; [done|]. unfold receive_chunk.
    rewrite decide_True by done. by rewrite Hfl.
  - destruct (write_chunk_in_range pair patterns _ H0) as [l0 Hl0].
    destruct (write_chunk_in_range pair patterns _ H1) as [l1 Hl1].
    destruct (write_chunk_in_range pair patterns _ H2) as [l2 Hl2].
    eexists. split.
    { unfold receive, receive_chunk, flush. simpl. rewrite Hl0. simpl.
      rewrite Hl1. simpl. reflexivity. }
    simpl. split; [done|]. split; [done|]. split; [done|].
    eexists. split.
    { rewrite drain_flush_ids. simpl.
      assert (sortLocationChunkMapID (<[2 := mkChunk 2 data2]> ∅) = [2]) as ->.
      { unfold sortLocationChunkMapID. by rewrite insert_empty, map_to_list_singleton. }
      unfold flush_ids, flush. simpl. rewrite lookup_insert_eq. simpl.
      rewrite Hl2. simpl. reflexivity. }
    reflexivity.
Qed.

Section PipelineContract.
Hypothesis FindAll_in_range : ∀ re s,
  Forall (λ loc : Z * Z, 0 ≤ loc.1 ∧ loc.1 ≤ loc.2 ∧ loc.2 ≤ Z.of_nat (length s))
         (FindAllSubmatchIndex re s).

(** Whatever the order of arrival, the receiver writes the results of
    the workers in the order of the input. *)
Lemma run_flushes_results threads iter input arrivals :
  chunk_stream input →
  pipeline_run pair Regexp FindAllSubmatchIndex onlyPositiveStrand threads iter
    input arrivals →
  ∃ st ls, receiver pair patterns arrivals = Some st ∧
    flushed st = results pair Regexp FindAllSubmatchIndex onlyPositiveStrand iter input ∧
    mapM (write_chunk pair patterns)
      (results pair Regexp FindAllSubmatchIndex onlyPositiveStrand iter input)
    = Some ls ∧
    outfh st = Header :: concat ls.
Proof.
  intros Hstream Hrun. apply pipeline_arrivals in Hrun.
  unfold chunk_stream in Hstream.
  destruct (receiver_sorted pair patterns arrivals (length input))
    as (st & Hst & Hids & Hperm).
  { by rewrite Hrun, results_ID, Hstream. }
  { rewrite Hrun. apply Forall_fmap, Forall_forall. intros chunk _.
    by apply worker_in_range. }
  assert (flushed st = results pair Regexp FindAllSubmatchIndex onlyPositiveStrand iter input)
    as Hfl.
  { apply (Permutation_same_keys ID).
    - by rewrite Hperm.
    - by rewrite Hids, results_ID, Hstream.
    - rewrite Hids. apply NoDup_seqZ. }
  destruct (out_inv_receiver pair patterns arrivals st Hst) as (ls & Hls & Hout).
  exists st, ls. rewrite <- Hfl. done.
Qed.

(** C5 (amended): when the pattern map is visited in the same order
    [iter] in both runs, a run with one worker and a run with eight
    workers write the same output. *)
Theorem output_independent_of_threads (iter : Z → nat → list (string * Regexp))
    (input : list FastaRecordChunk) (arrivals1 arrivals8 : list LocationChunk) :
  chunk_stream input →
  pipeline_run pair Regexp FindAllSubmatchIndex onlyPositiveStrand 1 iter
    input arrivals1 →
  pipeline_run pair Regexp FindAllSubmatchIndex onlyPositiveStrand 8 iter
    input arrivals8 →
  is_Some (output pair patterns arrivals1) ∧
  output pair patterns arrivals1 = output pair patterns arrivals8.
Proof.
  intros Hstream Hrun1 Hrun8.
  destruct (run_flushes_results 1 iter input arrivals1 Hstream Hrun1)
    as (st1 & ls1 & Hst1 & _ & Hls1 & Hout1).
  destruct (run_flushes_results 8 iter input arrivals8 Hstream Hrun8)
    as (st8 & ls8 & Hst8 & _ & Hls8 & Hout8).
  unfold output. rewrite Hst1, Hst8. simpl. split; [eauto|].
  rewrite Hout1, Hout8. congruence.
Qed.

(** C3 (amended): the entries written are, for every chunk of the
    input in order and every record of the chunk in order, what the
    patterns found for this record, once, and the output is the header
    followed by the rows of these entries.  Each entry names its record
    and has at least one location, hence at least one row; a record for
    which no pattern matches on a searched strand has no entry and no
    row. *)
Theorem matched_records_written (threads : nat)
    (iter : Z → nat → list (string * Regexp))
    (input : list FastaRecordChunk) (arrivals : list LocationChunk) :
  chunk_stream input →
  pipeline_run pair Regexp FindAllSubmatchIndex onlyPositiveStrand threads iter
    input arrivals →
  (∃ st, receiver pair patterns arrivals = Some st ∧
     Data <$> flushed st
     = (λ chunk, concat (imap (λ j record,
             locate_record pair Regexp FindAllSubmatchIndex onlyPositiveStrand
               (iter (fcID chunk) j) record []) (fcData chunk))) <$> input ∧
     ∃ ls, mapM (write_chunk pair patterns) (flushed st) = Some ls ∧
           outfh st = Header :: concat ls) ∧
  ∀ order record,
    (∀ info,
       info ∈ locate_record pair Regexp FindAllSubmatchIndex onlyPositiveStrand
                order record [] →
       Record_ info = record ∧ Locations info ≠ []) ∧
    (locate_record pair Regexp FindAllSubmatchIndex onlyPositiveStrand order record []
     = [] ↔
     ∀ entry, entry ∈ order →
       FindAllSubmatchIndex entry.2 (rcSeq record) = [] ∧
       (onlyPositiveStrand = false →
        FindAllSubmatchIndex entry.2 (RevCom pair (rcSeq record)) = [])).
Proof.
  intros Hstream Hrun. split.
  - destruct (run_flushes_results threads iter input arrivals Hstream Hrun)
      as (st & ls & Hst & Hfl & Hls & Hout).
    exists st. split; [done|]. rewrite Hfl. split; [|by exists ls].
    unfold results.
    rewrite <- list_fmap_compose. apply list_fmap_ext. intros _ chunk _. simpl.
    apply worker_Data.
  - intros order record. split; [|apply locate_record_nil].
    intros info Hinfo.
    destruct (located_in_range pair Regexp FindAllSubmatchIndex onlyPositiveStrand
                FindAll_in_range order record info Hinfo) as (? & _ & ?).
    done.
Qed.
End PipelineContract.
End PipelineFacts.

(** ** Pattern preparation *)

Section PatternFacts.
Variable Regexp : Type.
Variable Compile : string → option Regexp.
Variable Degenerate2Regexp : bytes → string.
Variable NewSeq : bytes → option bytes.
Variable GetSeqsMap : string → option (gmap string FastaRecord).
Variables degenerate ignoreCase : bool.

Lemma add_file_pattern_stopped (l : list (string * FastaRecord)) :
  foldl (add_file_pattern Regexp Compile Degenerate2Regexp degenerate ignoreCase) None l
  = None.
Proof. induction l as [|e l IH]; [done|]. simpl. exact IH. Qed.

Lemma file_patterns_spec (l : list (string * FastaRecord)) : ∀ acc maps,
  foldl (add_file_pattern Regexp Compile Degenerate2Regexp degenerate ignoreCase)
        (Some acc) l = Some maps →
  NoDup l.*1 →
  ∀ name,
    (∀ record, (name, record) ∈ l →
       maps.1 !! name = Some (rcSeq record) ∧
       is_Some (maps.2 !! name) ∧
       maps.2 !! name
       = Compile (file_pattern_source Degenerate2Regexp degenerate ignoreCase record)) ∧
    (name ∉ l.*1 → maps.1 !! name = acc.1 !! name ∧ maps.2 !! name = acc.2 !! name).
Proof.
  induction l as [|[n r] l IH]; intros acc maps Hrun Hnd name.
  - simpl in Hrun. injection Hrun as <-. split; [|done].
    by intros record ?%elem_of_nil.
  - rewrite fmap_cons in Hnd. apply NoDup_cons in Hnd as [Hn Hnd]. simpl in Hn.
    assert (add_file_pattern Regexp Compile Degenerate2Regexp degenerate ignoreCase
              (Some acc) (n, r)
            = re ← Compile (file_pattern_source Degenerate2Regexp degenerate ignoreCase r);
              Some (<[n := rcSeq r]> acc.1, <[n := re]> acc.2)) as Hstep by done.
    change (foldl ?f (Some acc) ((n, r) :: l)) with (foldl f (f (Some acc) (n, r)) l) in Hrun.
    rewrite Hstep in Hrun. clear Hstep.
    destruct (Compile (file_pattern_source Degenerate2Regexp degenerate ignoreCase r))
      as [re|] eqn:Hre; simpl in Hrun;
      [|by rewrite add_file_pattern_stopped in Hrun].
    destruct (IH _ maps Hrun Hnd name) as [Hin Hout].
    destruct (IH _ maps Hrun Hnd n) as [_ Hn_out]. specialize (Hn_out Hn).
    simpl in Hn_out, Hout. split.
    + intros record [Heq|Hl]%elem_of_cons.
      * injection Heq as -> ->. destruct Hn_out as [-> ->].
        rewrite !lookup_insert_eq. by rewrite Hre.
      * by apply Hin.
    + intros Hname. rewrite fmap_cons in Hname. apply not_elem_of_cons in Hname as [Hne Hname].
      simpl in Hne. destruct (Hout Hname) as [-> ->].
      by rewrite !lookup_insert_ne.
Qed.

Lemma file_patterns_ok (l : list (string * FastaRecord)) : ∀ acc,
  Forall (λ e, is_Some (Compile (file_pattern_source Degenerate2Regexp degenerate
                                   ignoreCase e.2))) l →
  is_Some (foldl (add_file_pattern Regexp Compile Degenerate2Regexp degenerate ignoreCase)
                 (Some acc) l).
Proof.
  induction l as [|[n r] l IH]; intros acc Hl; [by eexists|].
  apply Forall_cons in Hl as [[re Hre] Hl]. simpl in Hre.
  change (foldl ?f (Some acc) ((n, r) :: l)) with (foldl f (f (Some acc) (n, r)) l).
  assert (add_file_pattern Regexp Compile Degenerate2Regexp degenerate ignoreCase
            (Some acc) (n, r)
          = Some (<[n := rcSeq r]> acc.1, <[n := re]> acc.2)) as ->.
  { unfold add_file_pattern. simpl.
    fold (file_pattern_source Degenerate2Regexp degenerate ignoreCase r).
    by rewrite Hre. }
  apply IH, Hl.
Qed.

(** C10: with a pattern file, the maps [patterns] and [regexps] are
    built from the records of the file alone; the listed patterns add
    nothing and change nothing.  When the file is read and its records
    compile, the preparation succeeds and the maps hold, under the names
    of the records, their sequences and the compiled expressions, and
    nothing else. *)
Theorem pattern_file_precedence (pattern pattern' : list string) (patternFile : string) :
  patternFile ≠ "" →
  prepare_patterns Regexp Compile Degenerate2Regexp NewSeq GetSeqsMap degenerate ignoreCase
    pattern patternFile
  = prepare_patterns Regexp Compile Degenerate2Regexp NewSeq GetSeqsMap degenerate
      ignoreCase pattern' patternFile ∧
  (∀ maps,
    prepare_patterns Regexp Compile Degenerate2Regexp NewSeq GetSeqsMap degenerate
      ignoreCase pattern patternFile = Some maps →
    ∃ records, GetSeqsMap patternFile = Some records ∧
      ∀ name,
        maps.1 !! name = rcSeq <$> records !! name ∧
        maps.2 !! name = records !! name ≫=
          λ record, Compile (file_pattern_source Degenerate2Regexp degenerate
                               ignoreCase record)) ∧
  (∀ records,
    GetSeqsMap patternFile = Some records →
    (∀ name record, records !! name = Some record →
       is_Some (Compile (file_pattern_source Degenerate2Regexp degenerate ignoreCase
                           record))) →
    ∃ maps,
      prepare_patterns Regexp Compile Degenerate2Regexp NewSeq GetSeqsMap degenerate
        ignoreCase pattern patternFile = Some maps ∧
      (∀ name record, records !! name = Some record →
         maps.1 !! name = Some (rcSeq record) ∧
         maps.2 !! name
         = Compile (file_pattern_source Degenerate2Regexp degenerate ignoreCase record) ∧
         is_Some (maps.2 !! name)) ∧
      (∀ name, records !! name = None → maps.1 !! name = None ∧ maps.2 !! name = None)).
Proof.
  intros Hfile. unfold prepare_patterns.
  rewrite (decide_False (P := length pattern = 0%nat ∧ patternFile = "")) by tauto.
  rewrite (decide_False (P := length pattern' = 0%nat ∧ patternFile = "")) by tauto.
  rewrite !decide_True by done. split; [done|].
  assert (∀ records maps name,
            foldl (add_file_pattern Regexp Compile Degenerate2Regexp degenerate ignoreCase)
                  (Some (∅, ∅)) (map_to_list records) = Some maps →
            maps.1 !! name = rcSeq <$> records !! name ∧
            maps.2 !! name = records !! name ≫=
              λ record, Compile (file_pattern_source Degenerate2Regexp degenerate
                                   ignoreCase record)) as Hmaps.
  { intros records maps name Hrun.
    destruct (file_patterns_spec _ _ _ Hrun (NoDup_fst_map_to_list records) name)
      as [Hin Hout].
    destruct (records !! name) as [record|] eqn:Hrec; simpl.
    - apply elem_of_map_to_list in Hrec. destruct (Hin record Hrec) as (? & _ & ?). done.
    - apply Hout. intros ([n r] & -> & Hn%elem_of_map_to_list)%list_elem_of_fmap.
      simpl in Hrec. congruence. }
  split.
  - intros maps Hrun.
    destruct (GetSeqsMap patternFile) as [records|]; [|done]. simpl in Hrun.
    exists records. split; [done|]. intros name. by apply Hmaps.
  - intros records -> Hcompile. simpl.
    destruct (file_patterns_ok (map_to_list records) (∅, ∅)) as [maps Hrun].
    { apply Forall_forall. intros [name record] Hin%elem_of_map_to_list. simpl.
      by apply (Hcompile name). }
    exists maps. split; [done|]. split.
    + intros name record Hrec. destruct (Hmaps records maps name Hrun) as [H1 H2].
      rewrite Hrec in H1, H2. simpl in H1, H2. split; [done|]. split; [done|].
      rewrite H2. by apply (Hcompile name).
    + intros name Hrec. destruct (Hmaps records maps name Hrun) as [H1 H2].
      rewrite Hrec in H1, H2. done.
Qed.
End PatternFacts.

(** ** The literal matcher keeps the promise of [FindAllSubmatchIndex] *)

Lemma has_prefix_length (pat s : bytes) :
  has_prefix pat s = true → (length pat ≤ length s)%nat.
Proof.
  revert s. induction pat as [|p pat IH]; intros [|c s]; simpl; try lia; try done.
  intros [_ H]%andb_prop. apply IH in H. lia.
Qed.

Lemma find_literal_in_range (pat s : bytes) : ∀ pos skip,
  Forall (λ loc : Z * Z, pos ≤ loc.1 ∧ loc.1 ≤ loc.2 ∧ loc.2 ≤ pos + Z.of_nat (length s))
         (find_literal pat s pos skip).
Proof.
  induction s as [|c s IH]; intros pos skip.
  - simpl. destruct skip, pat; repeat constructor; simpl; lia.
  - assert (∀ k, Forall (λ loc : Z * Z, pos ≤ loc.1 ∧ loc.1 ≤ loc.2 ∧
                           loc.2 ≤ pos + Z.of_nat (length (c :: s)))
                        (find_literal pat s (pos + 1) k)) as Hrest.
    { intros k. eapply Forall_impl; [apply IH|]. intros [a b]. simpl. lia. }
    destruct skip as [|k]; [|apply Hrest].
    change (find_literal pat (c :: s) pos 0) with
      (if has_prefix pat (c :: s)
       then (pos, pos + Z.of_nat (length pat))
              :: find_literal pat s (pos + 1) (Nat.pred (length pat))
       else find_literal pat s (pos + 1) 0).
    destruct (has_prefix pat (c :: s)) eqn:Hp; [|apply Hrest].
    apply has_prefix_length in Hp. constructor; [simpl in *; lia|apply Hrest].
Qed.

Lemma literal_find_in_range (pat s : bytes) :
  Forall (λ loc : Z * Z, 0 ≤ loc.1 ∧ loc.1 ≤ loc.2 ∧ loc.2 ≤ Z.of_nat (length s))
         (literal_find pat s).
Proof. apply (find_literal_in_range pat s 0 0). Qed.

(** ** The matcher of starred letters keeps it too *)

Lemma find_star_in_range (c : byte) (s : bytes) : ∀ pos run,
  0 ≤ default pos run ∧ default pos run ≤ pos →
  Forall (λ loc : Z * Z, 0 ≤ loc.1 ∧ loc.1 ≤ loc.2 ∧ loc.2 ≤ pos + Z.of_nat (length s))
         (find_star c s pos run).
Proof.
  induction s as [|x s IH]; intros pos run Hrun; simpl.
  - repeat constructor; simpl; lia.
  - assert (∀ run', 0 ≤ default (pos + 1) run' ∧ default (pos + 1) run' ≤ pos + 1 →
              Forall (λ loc : Z * Z, 0 ≤ loc.1 ∧ loc.1 ≤ loc.2 ∧
                        loc.2 ≤ pos + Z.of_nat (S (length s)))
                     (find_star c s (pos + 1) run')) as Hrest.
    { intros run' Hrun'. eapply Forall_impl; [by apply IH|].
      intros [a b]. simpl. lia. }
    destruct (Byte.eqb x c).
    + apply Hrest. simpl. lia.
    + constructor; [simpl; lia|]. apply Hrest. simpl. lia.
Qed.

Lemma star_find_in_range (c : byte) (s : bytes) :
  Forall (λ loc : Z * Z, 0 ≤ loc.1 ∧ loc.1 ≤ loc.2 ∧ loc.2 ≤ Z.of_nat (length s))
         (star_find c s).
Proof. apply (find_star_in_range c s 0 None). simpl. lia. Qed.

(** ** Runs of the model *)

(** C2, counterexample: the chunks arrive in the order 2, 0, 1.  When
    chunk 1 has been received, and the channel is not closed yet, chunks 0
    and 1 are written and chunk 2 is still in the buffer. *)
Lemma no_cascade_on_expected_chunk :
  ∃ st, receive DNA_pair ∅ receiver_start [mkChunk 2 []; mkChunk 0 []; mkChunk 1 []]
        = Some st ∧
    ID <$> flushed st = [0; 1] ∧ id st = 2 ∧ chunks st !! 2 = Some (mkChunk 2 []).
Proof. eexists. split; [reflexivity|]. simpl. done. Qed.

(** C6, counterexample: the chunks arrive in the order 1, 0, 2.  Chunk 2
    does not have the expected ID 1; the buffered chunk 1 is written
    first, which makes [id] 2, and then chunk 2 is stored under the key
    2, which is not above [id]. *)
Lemma stored_key_equal_to_id :
  ID <$> [mkChunk 1 []; mkChunk 0 []; mkChunk 2 []] ≡ₚ seqZ 0 3 ∧
  ∃ st st1 st2,
    receive DNA_pair ∅ receiver_start [mkChunk 1 []; mkChunk 0 []] = Some st ∧
    ID (mkChunk 2 []) ≠ id st ∧
    check_buffered DNA_pair ∅ (size (chunks st)) st = Some st1 ∧
    ¬ (id st1 < ID (mkChunk 2 [])) ∧
    receive_chunk DNA_pair ∅ st (mkChunk 2 []) = Some st2 ∧
    chunks st2 !! 2 = Some (mkChunk 2 []) ∧ id st2 = 2.
Proof.
  split.
  - simpl. apply perm_swap.
  - eexists. eexists. eexists. split; [reflexivity|]. split; [by vm_compute|].
    split; [reflexivity|]. split; [by vm_compute|]. split; [reflexivity|].
    split; [reflexivity|reflexivity].
Qed.

(** C3, counterexample: the record TTTT has no AC and no GT on either
    strand.  The run writes the header only, and no written entry names
    the record. *)
Lemma unmatched_record_not_written :
  ∃ st, receiver DNA_pair example_patterns
          (example_results example_iter [mkFastaChunk 0 [example_record3]]) = Some st ∧
    outfh st = [Header] ∧ ¬ record_written example_record3 st.
Proof.
  eexists. split; [reflexivity|]. split; [reflexivity|].
  intros (chunk & info & Hchunk & Hinfo & _).
  vm_compute in Hchunk. apply list_elem_of_singleton in Hchunk. subst chunk.
  by apply elem_of_nil in Hinfo.
Qed.

(** C7, counterexample: the pattern C* matches the empty span before the
    letter of the record A; its row has start 1 and end 0. *)
Lemma zero_width_row :
  ∃ lines row,
    output DNA_pair example_star_patterns
      (results DNA_pair byte star_find false (λ _ _, example_star_order)
         example_star_input) = Some lines ∧
    Match row ∈ lines ∧ strand row = 1 ∧ start row = 1 ∧ end_ row = 0 ∧
    ¬ (start row ≤ end_ row).
Proof.
  eexists. eexists. split; [vm_compute; reflexivity|].
  split; [right; left|]. simpl. lia.
Qed.

(** C9 (code bug): the run of [-p 'C*'] on the record A.  The reverse
    complement is T, in which C* matches the empty text at [0, 0) and at
    [1, 1).  The match at the end, [1, 1), is stored as [0, 0], and for
    it the receiver prints the whole reverse complement T, where the
    slice [1, 1) of the reverse complement is empty; the forward rows of
    the same empty matches show the empty text. *)
Theorem empty_match_at_end_prints_all :
  star_find x43 (RevCom DNA_pair (rcSeq example_record4)) = [(0, 0); (1, 1)] ∧
  results DNA_pair byte star_find false (λ _ _, example_star_order) example_star_input
  = [mkChunk 0 [mkInfo example_record4 "C*" 1 [(0, 0); (1, 1)];
                mkInfo example_record4 "C*" (-1) [(1, 1); (0, 0)]]] ∧
  output DNA_pair example_star_patterns
    (results DNA_pair byte star_find false (λ _ _, example_star_order) example_star_input)
  = Some [Header;
          Match (mkRow (letters "seq4") "C*" (letters "C*") 1 1 0 []);
          Match (mkRow (letters "seq4") "C*" (letters "C*") 1 2 1 []);
          Match (mkRow (letters "seq4") "C*" (letters "C*") (-1) 2 1 []);
          Match (mkRow (letters "seq4") "C*" (letters "C*") (-1) 1 0 (letters "T"))] ∧
  matched_text DNA_pair (mkInfo example_record4 "C*" (-1) [(1, 1); (0, 0)])
    (Z.of_nat (length (rcSeq example_record4)) - 1,
     Z.of_nat (length (rcSeq example_record4)) - 1)
  = Some (letters "T") ∧
  slice (RevCom DNA_pair (rcSeq example_record4)) 1 1 = Some [] ∧
  matched_text DNA_pair (mkInfo example_record4 "C*" (-1) [(1, 1); (0, 0)])
    (Z.of_nat (length (rcSeq example_record4)) - 1,
     Z.of_nat (length (rcSeq example_record4)) - 1)
  ≠ slice (RevCom DNA_pair (rcSeq example_record4)) 1 1.
Proof.
  split; [reflexivity|]. split; [reflexivity|]. split; [reflexivity|].
  split; [reflexivity|]. split; [reflexivity|].
  vm_compute. intros Heq. discriminate Heq.
Qed.

Lemma example_orders_enumerate :
  range_orders bytes example_patterns example_iter ∧
  range_orders bytes example_patterns example_iter_swapped.
Proof.
  assert (map_to_list example_patterns ≡ₚ example_order) as Hlist.
  { unfold example_patterns. rewrite map_to_list_insert by done.
    by rewrite map_to_list_singleton. }
  split; intros cid i; rewrite Hlist; [done|apply perm_swap].
Qed.

(** C5, counterexample: the same chunk and the same two patterns; one run
    with one worker and one run with eight workers, in which the pattern
    map is visited in different orders, write different outputs. *)
Lemma map_order_changes_output :
  range_orders bytes example_patterns example_iter ∧
  range_orders bytes example_patterns example_iter_swapped ∧
  pipeline_run DNA_pair bytes literal_find false 1 example_iter
    [mkFastaChunk 0 [example_record1]]
    (example_results example_iter [mkFastaChunk 0 [example_record1]]) ∧
  pipeline_run DNA_pair bytes literal_find false 8 example_iter_swapped
    [mkFastaChunk 0 [example_record1]]
    (example_results example_iter_swapped [mkFastaChunk 0 [example_record1]]) ∧
  output DNA_pair example_patterns
    (example_results example_iter [mkFastaChunk 0 [example_record1]])
  ≠ output DNA_pair example_patterns
      (example_results example_iter_swapped [mkFastaChunk 0 [example_record1]]).
Proof.
  split; [apply example_orders_enumerate|]. split; [apply example_orders_enumerate|].
  split; [apply pipeline_run_in_order; lia|]. split; [apply pipeline_run_in_order; lia|].
  vm_compute. discriminate.
Qed.

Lemma example_arrivals_in_range : Forall chunk_in_range example_arrivals.
Proof.
  unfold example_arrivals, example_worker.
  repeat (apply Forall_cons; split; [apply worker_in_range, literal_find_in_range|]).
  apply Forall_nil_2.
Defined.

Lemma example_arrivals_run :
  pipeline_run DNA_pair bytes literal_find false 8 example_iter example_input
    example_arrivals.
Proof.
  unfold pipeline_run, example_input.
  eapply rtc_l; [apply step_dispatch; simpl; lia|]. simpl.
  eapply rtc_l; [apply step_dispatch; simpl; lia|]. simpl.
  eapply rtc_l; [apply step_dispatch; simpl; lia|]. simpl.
  eapply rtc_l;
    [apply (step_send DNA_pair bytes literal_find false 8 example_iter []
              [example_worker example_chunk0; example_worker example_chunk1]
              (example_worker example_chunk2) [] [])|].
  eapply rtc_l;
    [apply (step_send DNA_pair bytes literal_find false 8 example_iter []
              [] (example_worker example_chunk0) [example_worker example_chunk1]
              [example_worker example_chunk2])|].
  eapply rtc_l;
    [apply (step_send DNA_pair bytes literal_find false 8 example_iter []
              [] (example_worker example_chunk1) []
              [example_worker example_chunk2; example_worker example_chunk0])|].
  apply rtc_refl.
Defined.

(** C1, witness: the results of three chunks, arriving in the order 2, 0, 1. *)
Lemma flushed_in_sequence_witness :
  ID <$> example_arrivals ≡ₚ seqZ 0 (Z.of_nat 3) ∧
  Forall chunk_in_range example_arrivals ∧
  ∃ st, receiver DNA_pair example_patterns example_arrivals = Some st ∧
    ID <$> flushed st = seqZ 0 (Z.of_nat 3) ∧
    flushed st ≡ₚ example_arrivals.
Proof.
  assert (ID <$> example_arrivals ≡ₚ seqZ 0 (Z.of_nat 3)) as Hperm.
  { vm_compute. apply (Permutation_cons_append [0; 1] 2). }
  split; [exact Hperm|]. split; [exact example_arrivals_in_range|].
  exact (flushed_in_sequence DNA_pair example_patterns example_arrivals 3 Hperm
           example_arrivals_in_range).
Defined.

(** C2, witness: the first chunk at the start, and the results of the
    three example chunks in the order 2, 0, 1. *)
Lemma expected_chunk_without_cascade_witness :
  ID (example_worker example_chunk0) = id receiver_start ∧
  chunk_in_range (example_worker example_chunk0) ∧
  chunk_in_range (mkChunk 0 (Data (example_worker example_chunk0))) ∧
  chunk_in_range (mkChunk 1 (Data (example_worker example_chunk1))) ∧
  chunk_in_range (mkChunk 2 (Data (example_worker example_chunk2))) ∧
  (∃ lines, write_chunk DNA_pair example_patterns (example_worker example_chunk0)
            = Some lines ∧
     receive_chunk DNA_pair example_patterns receiver_start (example_worker example_chunk0)
     = Some (mkReceiver (uint64_incr (id receiver_start)) (chunks receiver_start)
               (outfh receiver_start ++ lines)
               (flushed receiver_start ++ [example_worker example_chunk0]))) ∧
  (∃ st3, receive DNA_pair example_patterns receiver_start
            [mkChunk 2 (Data (example_worker example_chunk2));
             mkChunk 0 (Data (example_worker example_chunk0));
             mkChunk 1 (Data (example_worker example_chunk1))] = Some st3 ∧
     id st3 = 2 ∧
     flushed st3 = [mkChunk 0 (Data (example_worker example_chunk0));
                    mkChunk 1 (Data (example_worker example_chunk1))] ∧
     chunks st3 = {[2 := mkChunk 2 (Data (example_worker example_chunk2))]} ∧
     ∃ st4, drain DNA_pair example_patterns st3 = Some st4 ∧
       flushed st4 = [mkChunk 0 (Data (example_worker example_chunk0));
                      mkChunk 1 (Data (example_worker example_chunk1));
                      mkChunk 2 (Data (example_worker example_chunk2))]).
Proof.
  assert (chunk_in_range (example_worker example_chunk0)) as H0
    by apply worker_in_range, literal_find_in_range.
  assert (chunk_in_range (example_worker example_chunk1)) as H1
    by apply worker_in_range, literal_find_in_range.
  assert (chunk_in_range (example_worker example_chunk2)) as H2
    by apply worker_in_range, literal_find_in_range.
  split; [reflexivity|]. split; [exact H0|]. split; [exact H0|].
  split; [exact H1|]. split; [exact H2|].
  exact (expected_chunk_without_cascade DNA_pair example_patterns receiver_start
           (example_worker example_chunk0) _ _ _ eq_refl H0 H0 H1 H2).
Defined.

Lemma example_input_stream : chunk_stream example_input.
Proof. reflexivity. Defined.

(** C3, witness: a run of the example input with eight workers. *)
Lemma matched_records_written_witness :
  chunk_stream example_input ∧
  pipeline_run DNA_pair bytes literal_find false 8 example_iter example_input
    example_arrivals ∧
  ∃ st, receiver DNA_pair example_patterns example_arrivals = Some st ∧
    Data <$> flushed st
    = (λ chunk, concat (imap (λ j record,
            locate_record DNA_pair bytes literal_find false
              (example_iter (fcID chunk) j) record []) (fcData chunk))) <$> example_input ∧
    ∃ ls, mapM (write_chunk DNA_pair example_patterns) (flushed st) = Some ls ∧
          outfh st = Header :: concat ls.
Proof.
  split; [exact example_input_stream|]. split; [exact example_arrivals_run|].
  exact (proj1 (matched_records_written DNA_pair bytes literal_find false example_patterns
                  literal_find_in_range 8 example_iter example_input example_arrivals
                  example_input_stream example_arrivals_run)).
Defined.

(** C5, witness: the example input, once with its results in order and
    once with the last result first. *)
Lemma output_independent_of_threads_witness :
  chunk_stream example_input ∧
  pipeline_run DNA_pair bytes literal_find false 1 example_iter example_input
    (example_results example_iter example_input) ∧
  pipeline_run DNA_pair bytes literal_find false 8 example_iter example_input
    example_arrivals ∧
  is_Some (output DNA_pair example_patterns (example_results example_iter example_input)) ∧
  output DNA_pair example_patterns (example_results example_iter example_input)
  = output DNA_pair example_patterns example_arrivals.
Proof.
  assert (pipeline_run DNA_pair bytes literal_find false 1 example_iter example_input
            (example_results example_iter example_input)) as Hrun1
    by (apply pipeline_run_in_order; lia).
  split; [exact example_input_stream|]. split; [exact Hrun1|].
  split; [exact example_arrivals_run|].
  exact (output_independent_of_threads DNA_pair bytes literal_find false example_patterns
           literal_find_in_range example_iter example_input _ _
           example_input_stream Hrun1 example_arrivals_run).
Defined.

(** C6, witness: the example arrivals after two of the three chunks. *)
Lemma buffered_not_below_witness :
  ID <$> example_arrivals ≡ₚ seqZ 0 (Z.of_nat 3) ∧
  Forall chunk_in_range example_arrivals ∧
  ∃ st, receive DNA_pair example_patterns receiver_start
          [example_worker example_chunk2; example_worker example_chunk0] = Some st ∧
    (∀ k c, chunks st !! k = Some c → ID c = k ∧ id st ≤ k) ∧
    (∀ chunk, chunk ∈ [example_worker example_chunk1] → id st ≤ ID chunk).
Proof.
  assert (ID <$> example_arrivals ≡ₚ seqZ 0 (Z.of_nat 3)) as Hperm.
  { vm_compute. apply (Permutation_cons_append [0; 1] 2). }
  split; [exact Hperm|]. split; [exact example_arrivals_in_range|].
  destruct (buffered_not_below DNA_pair example_patterns example_arrivals
              [example_worker example_chunk2; example_worker example_chunk0]
              [example_worker example_chunk1] 3 Hperm example_arrivals_in_range eq_refl)
    as (st & Hst & Hkeys & Hfuture & _).
  exists st. split; [exact Hst|]. split; [exact Hkeys|exact Hfuture].
Defined.

(** C4, witness: AC in AACGTT, at [1, 3) on both strands. *)
Lemma strand_coordinates_witness :
  (("AC", letters "AC") ∈ example_order) ∧
  (0 ≤ 1 ∧ 1 ≤ 3 ∧ 3 ≤ Z.of_nat (length (rcSeq example_record1))) ∧
  ((1, 3) ∈ literal_find (letters "AC") (rcSeq example_record1)) ∧
  ((1, 3) ∈ literal_find (letters "AC") (RevCom DNA_pair (rcSeq example_record1))) ∧
  (∃ info row,
     info ∈ locate_record DNA_pair bytes literal_find false example_order
              example_record1 [] ∧
     Record_ info = example_record1 ∧ PatternName info = "AC" ∧
     (1, 3) ∈ Locations info ∧
     write_location DNA_pair example_patterns info (1, 3) = Some (Match row) ∧
     strand row = 1 ∧ start row = 1 + 1 ∧ end_ row = 3) ∧
  (∃ info row,
     info ∈ locate_record DNA_pair bytes literal_find false example_order
              example_record1 [] ∧
     Record_ info = example_record1 ∧ PatternName info = "AC" ∧
     (Z.of_nat (length (rcSeq example_record1)) - 3,
      Z.of_nat (length (rcSeq example_record1)) - 1) ∈ Locations info ∧
     write_location DNA_pair example_patterns info
       (Z.of_nat (length (rcSeq example_record1)) - 3,
        Z.of_nat (length (rcSeq example_record1)) - 1) = Some (Match row) ∧
     strand row = -1 ∧
     start row = Z.of_nat (length (rcSeq example_record1)) - 3 + 1 ∧
     end_ row = Z.of_nat (length (rcSeq example_record1)) - 1).
Proof.
  assert (("AC", letters "AC") ∈ example_order) as Hentry by left.
  assert (0 ≤ 1 ∧ 1 ≤ 3 ∧ 3 ≤ Z.of_nat (length (rcSeq example_record1))) as Hab
    by (simpl; lia).
  assert ((1, 3) ∈ literal_find (letters "AC") (rcSeq example_record1)) as Hf
    by (vm_compute; left).
  assert ((1, 3) ∈ literal_find (letters "AC") (RevCom DNA_pair (rcSeq example_record1)))
    as Hr by (vm_compute; left).
  split; [exact Hentry|]. split; [exact Hab|]. split; [exact Hf|]. split; [exact Hr|].
  destruct (strand_coordinates DNA_pair bytes literal_find false example_patterns
              example_order example_record1 [] ("AC", letters "AC") 1 3 Hentry Hab)
    as [Hforward Hreverse].
  split; [exact (Hforward Hf)|exact (Hreverse eq_refl Hr)].
Defined.

(** C7, witness: the row of the empty match of C* at the end of the
    reverse complement of the record A, stored as [0, 0]: start 1, end 0. *)
Lemma row_coordinates_witness :
  (mkInfo example_record4 "C*" (-1) [(1, 1); (0, 0)]
     ∈ locate_record DNA_pair byte star_find false example_star_order example_record4 []) ∧
  ((0, 0) ∈ Locations (mkInfo example_record4 "C*" (-1) [(1, 1); (0, 0)])) ∧
  ∃ row, write_location DNA_pair example_star_patterns
           (mkInfo example_record4 "C*" (-1) [(1, 1); (0, 0)]) (0, 0) = Some (Match row) ∧
    start row = 0 + 1 ∧ end_ row = 0 ∧
    1 ≤ start row ∧ end_ row ≤ Z.of_nat (length (rcSeq example_record4)) ∧
    (strand row = 1 ∨ 1 ≤ end_ row →
     end_ row - start row + 1 = Z.of_nat (length (matched row))) ∧
    (start row ≤ end_ row ↔ 0 < 0) ∧
    (0 = 0 → start row = end_ row + 1).
Proof.
  assert (mkInfo example_record4 "C*" (-1) [(1, 1); (0, 0)]
            ∈ locate_record DNA_pair byte star_find false example_star_order
                example_record4 []) as Hinfo by (vm_compute; right; left).
  assert ((0, 0) ∈ Locations (mkInfo example_record4 "C*" (-1) [(1, 1); (0, 0)])) as Hloc
    by (simpl; right; left).
  split; [exact Hinfo|]. split; [exact Hloc|].
  exact (row_coordinates DNA_pair byte star_find false example_star_patterns
           star_find_in_range example_star_order example_record4 _ _ Hinfo Hloc).
Defined.

(** C8, witness: the second and third entry found in AACGTT. *)
Lemma intra_record_order_witness :
  (locate_record DNA_pair bytes literal_find false example_order example_record1 [] !! 1%nat
   = Some (mkInfo example_record1 "AC" (-1) [(3, 5)])) ∧
  (locate_record DNA_pair bytes literal_find false example_order example_record1 [] !! 2%nat
   = Some (mkInfo example_record1 "GT" 1 [(3, 5)])) ∧
  (1 < 2)%nat ∧
  ∃ pi pj : nat,
    example_order.*1 !! pi = Some "AC" ∧ example_order.*1 !! pj = Some "GT" ∧
    (pi ≤ pj)%nat ∧ (pi = pj → -1 = 1 ∧ 1 = -1).
Proof.
  split; [reflexivity|]. split; [reflexivity|]. split; [lia|].
  exact (intra_record_order DNA_pair bytes literal_find false example_order example_record1
           1 2 (mkInfo example_record1 "AC" (-1) [(3, 5)])
           (mkInfo example_record1 "GT" 1 [(3, 5)]) eq_refl eq_refl (le_n 2)).
Defined.

(** The maps prepared from the pattern file hold its record and nothing
    of the pattern list; without a file they hold the listed patterns. *)
Lemma example_prepare_patterns :
  prepare_patterns string Some String.string_of_list_byte Some example_pattern_file
    false false ["AC"; "GT"] "motifs.fa"
  ≫= (λ maps, Some (maps.1 !! "m1", maps.1 !! "AC", maps.2 !! "m1", maps.2 !! "AC"))
  = Some (Some (letters "ACGT"), None, Some "ACGT", None) ∧
  prepare_patterns string Some String.string_of_list_byte Some example_pattern_file
    false true ["AC"; "GT"] ""
  ≫= (λ maps, Some (maps.1 !! "m1", maps.1 !! "AC", maps.2 !! "m1", maps.2 !! "AC"))
  = Some (None, Some (letters "AC"), None, Some "(?i)AC").
Proof. split; vm_compute; reflexivity. Qed.

(** C10, witness: the pattern file motifs.fa, with the record m1, together
    with the listed patterns AC and GT: the maps hold m1 and neither AC
    nor GT. *)
Lemma pattern_file_precedence_witness :
  "motifs.fa" ≠ "" ∧
  prepare_patterns string Some String.string_of_list_byte Some example_pattern_file
    false false ["AC"; "GT"] "motifs.fa"
  = prepare_patterns string Some String.string_of_list_byte Some example_pattern_file
      false false [] "motifs.fa" ∧
  ∃ maps,
    prepare_patterns string Some String.string_of_list_byte Some example_pattern_file
      false false ["AC"; "GT"] "motifs.fa" = Some maps ∧
    (maps.1 !! "m1" = Some (letters "ACGT") ∧ maps.2 !! "m1" = Some "ACGT") ∧
    (maps.1 !! "AC" = None ∧ maps.2 !! "AC" = None) ∧
    (maps.1 !! "GT" = None ∧ maps.2 !! "GT" = None).
Proof.
  assert ("motifs.fa" ≠ "") as Hfile by done.
  destruct (pattern_file_precedence string Some String.string_of_list_byte Some
              example_pattern_file false false ["AC"; "GT"] [] "motifs.fa" Hfile)
    as (Heq & _ & Hbuilt).
  split; [exact Hfile|]. split; [exact Heq|].
  destruct (Hbuilt {["m1" := mkRecord (letters "m1") (letters "ACGT")]} eq_refl)
    as (maps & Hmaps & Hin & Hout).
  { intros name record _. by eexists. }
  exists maps. split; [exact Hmaps|].
  destruct (Hin "m1" (mkRecord (letters "m1") (letters "ACGT")) eq_refl) as (H1 & H2 & _).
  split; [split; [exact H1|exact H2]|].
  split; [exact (Hout "AC" eq_refl)|exact (Hout "GT" eq_refl)].
Defined.

(** * Further properties of the receiver *)

Lemma StronglySorted_le_lt (l : list Z) :
  StronglySorted Z.le l → NoDup l → StronglySorted Z.lt l.
Proof.
  induction 1 as [|x l Hl IH Hx]; intros Hnd; [constructor|].
  apply NoDup_cons in Hnd as [Hnin Hnd]. constructor; [by apply IH|].
  rewrite Forall_forall in Hx |- *. intros y Hy.
  specialize (Hx y Hy). assert (x ≠ y) by (intros ->; done). lia.
Qed.

(** X1: [sortLocationChunkMapID] returns the keys of the map, each once,
    in strictly ascending order. *)
Theorem sorted_ids_are_the_keys (m : gmap Z LocationChunk) :
  StronglySorted Z.lt (sortLocationChunkMapID m) ∧
  (∀ k, k ∈ sortLocationChunkMapID m ↔ is_Some (m !! k)) ∧
  length (sortLocationChunkMapID m) = size m.
Proof.
  unfold sortLocationChunkMapID.
  pose proof (merge_sort_Permutation Z.le (map_to_list m).*1) as Hperm.
  split; [|split].
  - apply StronglySorted_le_lt.
    + apply StronglySorted_merge_sort; apply _.
    + rewrite Hperm. apply NoDup_fst_map_to_list.
  - intros k. rewrite Hperm, list_elem_of_fmap. split.
    + intros ([k' c] & -> & Hin). apply elem_of_map_to_list in Hin. eauto.
    + intros [c Hc]. exists (k, c). split; [done|]. by apply elem_of_map_to_list.
  - rewrite Hperm, length_fmap. apply length_map_to_list.
Qed.

Section ReceiverMore.
Variable pair : byte → byte.
Variable patterns : gmap string bytes.

(** The final pass after any reception: nothing is lost and the IDs
    written are in ascending order. *)
Lemma drain_any g rcvd st :
  buffer_inv g rcvd st → Forall chunk_in_range rcvd →
  ∃ st', drain pair patterns st = Some st' ∧
    flushed st' ≡ₚ rcvd ∧ StronglySorted Z.le (ID <$> flushed st').
Proof.
  intros Hinv Hrange. pose proof (inv_nonneg _ _ _ Hinv) as Hg.
  assert (∀ k, k ∈ sortLocationChunkMapID (chunks st) →
            ∃ c, chunks st !! k = Some c ∧ ID c = k ∧ g ≤ k ∧ chunk_in_range c) as Hkeys.
  { intros k Hk. unfold sortLocationChunkMapID in Hk.
    rewrite merge_sort_Permutation in Hk.
    apply list_elem_of_fmap in Hk as ([k' c] & -> & Hin).
    apply elem_of_map_to_list in Hin. exists c. split; [done|].
    destruct (inv_keys _ _ _ Hinv _ _ Hin) as [? ?].
    split; [done|]. split; [done|].
    rewrite Forall_forall in Hrange. eauto using buffered_arrived. }
  rewrite drain_flush_ids.
  destruct (flush_ids_in_range pair patterns (sortLocationChunkMapID (chunks st)) st)
    as (st' & -> & Hfl).
  { apply Forall_forall. intros k Hk. destruct (Hkeys k Hk) as (c & ? & _ & _ & ?). eauto. }
  exists st'. split; [done|]. rewrite Hfl. split.
  - rewrite <- (inv_perm _ _ _ Hinv). apply Permutation_app_head.
    rewrite <- buffer_values. apply fmap_Permutation.
    unfold sortLocationChunkMapID. apply merge_sort_Permutation.
  - rewrite fmap_app, (inv_flushed _ _ _ Hinv).
    assert ((ID <$> ((λ k, default (mkChunk 0 []) (chunks st !! k))
                       <$> sortLocationChunkMapID (chunks st)))
            = sortLocationChunkMapID (chunks st)) as ->.
    { rewrite <- list_fmap_compose. etrans; [|apply list_fmap_id].
      apply Forall_fmap_ext, Forall_forall. intros k Hk. simpl.
      destruct (Hkeys k Hk) as (c & -> & ? & _). done. }
    apply StronglySorted_app_2.
    + intros x1 x2 Hx1 Hx2. apply elem_of_seqZ in Hx1.
      destruct (Hkeys x2 Hx2) as (_ & _ & _ & ? & _). lia.
    + apply Sorted_StronglySorted; [apply _|apply Sorted_seqZ].
    + apply StronglySorted_merge_sort; apply _.
Qed.

(** X2: chunks with distinct IDs, with or without gaps in the numbering,
    are all written, each once, in ascending order of their IDs: a
    missing chunk does not stop the receiver, the chunks after the gap
    are written by the final sorted pass. *)
Theorem receiver_sorts_distinct_ids (arrivals : list LocationChunk) :
  NoDup (ID <$> arrivals) →
  Forall (λ chunk, 0 ≤ ID chunk) arrivals →
  Forall chunk_in_range arrivals →
  ∃ st, receiver pair patterns arrivals = Some st ∧
    flushed st ≡ₚ arrivals ∧
    ID <$> flushed st = merge_sort Z.le (ID <$> arrivals).
Proof.
  intros Hnd Hpos Hrange. unfold receiver.
  destruct (receive_inv pair patterns arrivals 0 [] receiver_start buffer_inv_start)
    as (g & st & -> & Hinv & _); simpl; try done.
  destruct (drain_any g arrivals st Hinv Hrange) as (st' & Hdrain & Hperm & Hsorted).
  exists st'. split; [done|]. split; [done|].
  apply (Sorted_unique Z.le).
  - by apply StronglySorted_Sorted.
  - apply Sorted_merge_sort, _.
  - by rewrite merge_sort_Permutation, Hperm.
Qed.

(** Chunks that arrive in the order of their IDs are written at once. *)
Lemma receive_in_order (rest : list LocationChunk) : ∀ (st : Receiver) (g : Z),
  chunks st = ∅ → id st = g mod 2 ^ 64 → 0 ≤ g →
  ID <$> rest = seqZ g (Z.of_nat (length rest)) →
  g + Z.of_nat (length rest) ≤ 2 ^ 64 →
  Forall chunk_in_range rest →
  ∃ st', receive pair patterns st rest = Some st' ∧
    chunks st' = ∅ ∧ flushed st' = flushed st ++ rest.
Proof.
  induction rest as [|chunk rest IH]; intros st g Hempty Hid Hg Hids Hbound Hrange.
  - exists st. by rewrite app_nil_r.
  - apply Forall_cons in Hrange as [Hchunk Hrange].
    rewrite length_cons, Nat2Z.inj_succ in Hids, Hbound.
    rewrite fmap_cons, seqZ_cons in Hids by lia.
    injection Hids as HID Hids.
    rewrite Z.pred_succ in Hids.
    assert (ID chunk = id st) as Hexp.
    { rewrite Hid, Z.mod_small by lia. done. }
    simpl. unfold receive_chunk. rewrite decide_True by done.
    destruct (flush_in_range pair patterns st chunk Hchunk) as (lines & _ & ->). simpl.
    destruct (IH (mkReceiver (uint64_incr (id st)) (chunks st) (outfh st ++ lines)
                    (flushed st ++ [chunk])) (Z.succ g)) as (st' & Hrun & Hch & Hfl).
    + done.
    + simpl. unfold uint64_incr. rewrite <- Hexp, HID. f_equal.
    + lia.
    + done.
    + lia.
    + done.
    + exists st'. split; [done|]. split; [done|]. rewrite Hfl. simpl.
      by rewrite <- app_assoc.
Qed.
End ReceiverMore.

(** * The output as a function of the input *)

Lemma mapM_total {A B} (f : A → option B) (g : A → B) (l : list A) :
  Forall (λ x, f x = Some (g x)) l → mapM f l = Some (g <$> l).
Proof.
  intros H. apply mapM_Some. induction H; simpl; constructor; auto.
Qed.

Lemma concat_bind {A B} (f : A → list B) (l : list A) : concat (f <$> l) = l ≫= f.
Proof. induction l as [|x l IH]; [done|]. by rewrite fmap_cons, bind_cons, <- IH. Qed.

Lemma concat_Forall2_Permutation {A} (ls ks : list (list A)) :
  Forall2 (≡ₚ) ls ks → concat ls ≡ₚ concat ks.
Proof. induction 1 as [|l k ls ks Hlk _ IH]; simpl; [done|]. by rewrite Hlk, IH. Qed.

Section RowFacts.
Variable pair : byte → byte.
Variable patterns : gmap string bytes.

Lemma write_location_row (info : LocationInfo) (loc : Z * Z) :
  0 ≤ loc.1 ∧ loc.1 ≤ loc.2 ∧ loc.2 ≤ Z.of_nat (length (rcSeq (Record_ info))) →
  write_location pair patterns info loc = Some (Match (row_of pair patterns info loc)).
Proof.
  intros Hloc. unfold write_location, matched_text, SubSeq, row_of.
  case_decide.
  - by rewrite slice_in_range.
  - case_decide as Hend.
    + rewrite slice_in_range by lia. simpl.
      replace (loc.1 + 1 - 1) with 0 by lia.
      by rewrite Z.sub_0_r, Nat2Z.id, firstn_all.
    + rewrite slice_in_range by lia. simpl. by rewrite Z.add_simpl_r.
Qed.

Lemma write_chunk_rows (chunk : LocationChunk) :
  chunk_in_range chunk →
  write_chunk pair patterns chunk = Some (rows_of_chunk pair patterns chunk).
Proof.
  intros Hrange. unfold write_chunk, rows_of_chunk.
  rewrite (mapM_total _ (rows_of_info pair patterns)).
  - simpl. by rewrite concat_bind.
  - eapply Forall_impl; [exact Hrange|]. intros info Hinfo. simpl.
    unfold write_info, rows_of_info. apply mapM_total.
    eapply Forall_impl; [exact Hinfo|]. intros loc Hloc. simpl.
    by apply write_location_row.
Qed.

Lemma write_chunks_rows (cs : list LocationChunk) :
  Forall chunk_in_range cs →
  mapM (write_chunk pair patterns) cs = Some (rows_of_chunk pair patterns <$> cs).
Proof.
  intros Hrange. apply mapM_total.
  eapply Forall_impl; [exact Hrange|]. intros c Hc. simpl. by apply write_chunk_rows.
Qed.
End RowFacts.

Section OutputFacts.
Variable pair : byte → byte.
Variable Regexp : Type.
Variable FindAllSubmatchIndex : Regexp → bytes → list (Z * Z).
Variable onlyPositiveStrand : bool.
Variable patterns : gmap string bytes.

Lemma locate_record_bind order record :
  locate_record pair Regexp FindAllSubmatchIndex onlyPositiveStrand order record []
  = order ≫= λ entry,
      forward_matches Regexp FindAllSubmatchIndex record entry
      ++ reverse_matches pair Regexp FindAllSubmatchIndex onlyPositiveStrand record entry.
Proof.
  induction order as [|entry order IH]; [done|].
  by rewrite locate_record_cons, bind_cons, IH.
Qed.

(** The order in which the map is visited changes the order of the
    entries of a record and nothing else. *)
Lemma locate_record_Permutation order1 order2 record :
  order1 ≡ₚ order2 →
  locate_record pair Regexp FindAllSubmatchIndex onlyPositiveStrand order1 record []
  ≡ₚ locate_record pair Regexp FindAllSubmatchIndex onlyPositiveStrand order2 record [].
Proof. intros Hperm. by rewrite !locate_record_bind, Hperm. Qed.

Lemma elem_of_worker_Data iter chunk info :
  info ∈ Data (worker pair Regexp FindAllSubmatchIndex onlyPositiveStrand iter chunk) ↔
  ∃ j record, fcData chunk !! j = Some record ∧
    info ∈ locate_record pair Regexp FindAllSubmatchIndex onlyPositiveStrand
             (iter j) record [].
Proof.
  rewrite worker_Data, list_elem_of_In, in_concat. split.
  - intros (block & Hblock & Hin). apply list_elem_of_In in Hblock, Hin.
    apply elem_of_lookup_imap in Hblock as (j & record & -> & Hj). eauto.
  - intros (j & record & Hj & Hin).
    exists (locate_record pair Regexp FindAllSubmatchIndex onlyPositiveStrand
              (iter j) record []).
    rewrite <- !list_elem_of_In. split; [|exact Hin].
    apply (elem_of_lookup_imap_2
             (λ j record, locate_record pair Regexp FindAllSubmatchIndex
                            onlyPositiveStrand (iter j) record []) _ record j Hj).
Qed.

Lemma RevCom_text (s : bytes) (a b : Z) :
  0 ≤ a ∧ a ≤ b ∧ b ≤ Z.of_nat (length s) →
  RevCom pair (take (Z.to_nat (Z.of_nat (length s) - a - (Z.of_nat (length s) - b)))
                 (drop (Z.to_nat (Z.of_nat (length s) - b)) s))
  = take (Z.to_nat (b - a)) (drop (Z.to_nat a) (RevCom pair s)).
Proof.
  intros Hab. pose proof (RevCom_slice pair s a b Hab) as Heq.
  rewrite !slice_in_range in Heq by (rewrite ?RevCom_length; lia).
  simpl in Heq. by injection Heq.
Qed.

(** The text of a reverse row: [SubSeq(1, 0)], asked for the empty match
    at the end of the reverse complement, gives the whole sequence. *)
Lemma reverse_row_text (s : bytes) (a b : Z) :
  0 ≤ a ∧ a ≤ b ∧ b ≤ Z.of_nat (length s) →
  RevCom pair
    (if decide (Z.of_nat (length s) - a = 0) then s
     else take (Z.to_nat (Z.of_nat (length s) - a - (Z.of_nat (length s) - b)))
            (drop (Z.to_nat (Z.of_nat (length s) - b)) s))
  = if decide (a = Z.of_nat (length s)) then RevCom pair s
    else take (Z.to_nat (b - a)) (drop (Z.to_nat a) (RevCom pair s)).
Proof.
  intros Hab. destruct (decide (a = Z.of_nat (length s))) as [->|Ha].
  - by rewrite decide_True by lia.
  - rewrite decide_False by lia. by apply RevCom_text.
Qed.

Section OutputContract.
Hypothesis FindAll_in_range : ∀ re s,
  Forall (λ loc : Z * Z, 0 ≤ loc.1 ∧ loc.1 ≤ loc.2 ∧ loc.2 ≤ Z.of_nat (length s))
         (FindAllSubmatchIndex re s).

(** The lines of a run: the header and then the rows of the results of
    the workers, in the order of the input. *)
Lemma run_output threads iter input arrivals :
  chunk_stream input →
  pipeline_run pair Regexp FindAllSubmatchIndex onlyPositiveStrand threads iter
    input arrivals →
  output pair patterns arrivals
  = Some (Header ::
            (results pair Regexp FindAllSubmatchIndex onlyPositiveStrand iter input
             ≫= rows_of_chunk pair patterns)).
Proof.
  intros Hstream Hrun.
  destruct (run_flushes_results pair Regexp FindAllSubmatchIndex onlyPositiveStrand
              patterns FindAll_in_range threads iter input arrivals Hstream Hrun)
    as (st & ls & Hst & _ & Hls & Hout).
  rewrite write_chunks_rows in Hls.
  - injection Hls as <-. unfold output. rewrite Hst. simpl.
    by rewrite Hout, concat_bind.
  - apply Forall_fmap, Forall_forall. intros chunk _.
    by apply worker_in_range.
Qed.

(** The rows of the result of a worker are the rows of the matches found
    in the records of its chunk. *)
Lemma elem_of_worker_rows iter chunk line :
  line ∈ rows_of_chunk pair patterns
           (worker pair Regexp FindAllSubmatchIndex onlyPositiveStrand iter chunk) ↔
  ∃ j record entry a b,
    fcData chunk !! j = Some record ∧ entry ∈ iter j ∧
    (((a, b) ∈ FindAllSubmatchIndex entry.2 (rcSeq record) ∧
      line = Match (mkRow (rcID record) entry.1 (default [] (patterns !! entry.1)) 1
                      (a + 1) b
                      (take (Z.to_nat (b - a)) (drop (Z.to_nat a) (rcSeq record))))) ∨
     (onlyPositiveStrand = false ∧
      (a, b) ∈ FindAllSubmatchIndex entry.2 (RevCom pair (rcSeq record)) ∧
      line = Match (mkRow (rcID record) entry.1 (default [] (patterns !! entry.1)) (-1)
                      (Z.of_nat (length (rcSeq record)) - b + 1)
                      (Z.of_nat (length (rcSeq record)) - a)
                      (if decide (a = Z.of_nat (length (rcSeq record)))
                       then RevCom pair (rcSeq record)
                       else take (Z.to_nat (b - a))
                              (drop (Z.to_nat a) (RevCom pair (rcSeq record))))))).
Proof.
  unfold rows_of_chunk. rewrite list_elem_of_bind. split.
  - intros (info & Hline & Hinfo).
    apply list_elem_of_fmap in Hline as (loc & -> & Hloc).
    apply elem_of_worker_Data in Hinfo as (j & record & Hj & Hinfo).
    apply elem_of_locate_record in Hinfo as (entry & Hentry & [Hf|Hr]).
    + apply forward_matches_spec in Hf as [-> _]. destruct loc as [a b].
      exists j, record, entry, a, b. split; [done|]. split; [done|]. left.
      split; [done|]. done.
    + apply reverse_matches_spec in Hr as (Honly & -> & _). simpl in Hloc.
      apply list_elem_of_fmap in Hloc as ([a b] & -> & Hab).
      exists j, record, entry, a, b. split; [done|]. split; [done|]. right.
      split; [done|]. split; [done|].
      pose proof (FindAll_in_range entry.2 (RevCom pair (rcSeq record))) as Hrange.
      rewrite Forall_forall in Hrange. specialize (Hrange _ Hab).
      rewrite RevCom_length in Hrange. simpl in Hrange.
      unfold row_of. simpl. rewrite RevCom_length. by rewrite reverse_row_text.
  - intros (j & record & entry & a & b & Hj & Hentry & [[Hab ->]|(Honly & Hab & ->)]).
    + exists (mkInfo record entry.1 1 (FindAllSubmatchIndex entry.2 (rcSeq record))).
      split.
      * apply list_elem_of_fmap. exists (a, b). done.
      * apply elem_of_worker_Data. exists j, record. split; [done|].
        apply elem_of_locate_record. exists entry. split; [done|]. left.
        apply forward_matches_spec. split; [done|]. intros Hnil.
        rewrite Hnil in Hab. by apply elem_of_nil in Hab.
    + pose proof (FindAll_in_range entry.2 (RevCom pair (rcSeq record))) as Hrange.
      rewrite Forall_forall in Hrange. specialize (Hrange _ Hab).
      rewrite RevCom_length in Hrange. simpl in Hrange.
      exists (mkInfo record entry.1 (-1)
                ((λ loc : Z * Z,
                    (Z.of_nat (length (RevCom pair (rcSeq record))) - loc.2,
                     Z.of_nat (length (RevCom pair (rcSeq record))) - loc.1))
                   <$> FindAllSubmatchIndex entry.2 (RevCom pair (rcSeq record)))).
      split.
      * apply list_elem_of_fmap.
        exists (Z.of_nat (length (rcSeq record)) - b, Z.of_nat (length (rcSeq record)) - a).
        split.
        { unfold row_of. simpl. by rewrite reverse_row_text. }
        simpl. apply list_elem_of_fmap. exists (a, b). split; [|done].
        simpl. by rewrite RevCom_length.
      * apply elem_of_worker_Data. exists j, record. split; [done|].
        apply elem_of_locate_record. exists entry. split; [done|]. right.
        apply reverse_matches_spec. split; [done|]. split; [done|]. intros Hnil.
        rewrite Hnil in Hab. by apply elem_of_nil in Hab.
Qed.

Lemma elem_of_run_rows iter input line :
  line ∈ results pair Regexp FindAllSubmatchIndex onlyPositiveStrand iter input
           ≫= rows_of_chunk pair patterns ↔
  ∃ chunk j record entry a b,
    chunk ∈ input ∧ fcData chunk !! j = Some record ∧ entry ∈ iter (fcID chunk) j ∧
    (((a, b) ∈ FindAllSubmatchIndex entry.2 (rcSeq record) ∧
      line = Match (mkRow (rcID record) entry.1 (default [] (patterns !! entry.1)) 1
                      (a + 1) b
                      (take (Z.to_nat (b - a)) (drop (Z.to_nat a) (rcSeq record))))) ∨
     (onlyPositiveStrand = false ∧
      (a, b) ∈ FindAllSubmatchIndex entry.2 (RevCom pair (rcSeq record)) ∧
      line = Match (mkRow (rcID record) entry.1 (default [] (patterns !! entry.1)) (-1)
                      (Z.of_nat (length (rcSeq record)) - b + 1)
                      (Z.of_nat (length (rcSeq record)) - a)
                      (if decide (a = Z.of_nat (length (rcSeq record)))
                       then RevCom pair (rcSeq record)
                       else take (Z.to_nat (b - a))
                              (drop (Z.to_nat a) (RevCom pair (rcSeq record))))))).
Proof.
  rewrite list_elem_of_bind. unfold results. split.
  - intros (result & Hline & Hresult).
    apply list_elem_of_fmap in Hresult as (chunk & -> & Hchunk).
    apply elem_of_worker_rows in Hline as (j & record & entry & a & b & ? & ? & ?).
    by exists chunk, j, record, entry, a, b.
  - intros (chunk & j & record & entry & a & b & Hchunk & Hj & Hentry & Hline).
    exists (worker pair Regexp FindAllSubmatchIndex onlyPositiveStrand
              (iter (fcID chunk)) chunk).
    split.
    + apply elem_of_worker_rows. by exists j, record, entry, a, b.
    + apply list_elem_of_fmap. by exists chunk.
Qed.

(** X3: the output of a run is the header followed by rows, and a row is
    in the output exactly when it is the row of a match: for a match
    [a, b) of a pattern in a record, the record ID, the pattern name and
    bytes, strand 1, a+1, b and the letters [a, b) of the sequence; for a
    match [a, b) in the reverse complement, when that strand is
    searched, strand -1, L-b+1, L-a and the letters [a, b) of the reverse
    complement; for the empty match at the end of the reverse complement
    (a = b = L) the row shows the whole reverse complement instead,
    because its location [0, 0] makes the receiver call [SubSeq(1, 0)]. *)
Theorem output_rows_are_the_matches (threads : nat)
    (iter : Z → nat → list (string * Regexp))
    (input : list FastaRecordChunk) (arrivals : list LocationChunk) :
  chunk_stream input →
  pipeline_run pair Regexp FindAllSubmatchIndex onlyPositiveStrand threads iter
    input arrivals →
  ∃ lines, output pair patterns arrivals = Some (Header :: lines) ∧
    ∀ line, line ∈ lines ↔
      ∃ chunk j record entry a b,
        chunk ∈ input ∧ fcData chunk !! j = Some record ∧
        entry ∈ iter (fcID chunk) j ∧
        (((a, b) ∈ FindAllSubmatchIndex entry.2 (rcSeq record) ∧
          line = Match (mkRow (rcID record) entry.1
                          (default [] (patterns !! entry.1)) 1 (a + 1) b
                          (take (Z.to_nat (b - a))
                             (drop (Z.to_nat a) (rcSeq record))))) ∨
         (onlyPositiveStrand = false ∧
          (a, b) ∈ FindAllSubmatchIndex entry.2 (RevCom pair (rcSeq record)) ∧
          line = Match (mkRow (rcID record) entry.1
                          (default [] (patterns !! entry.1)) (-1)
                          (Z.of_nat (length (rcSeq record)) - b + 1)
                          (Z.of_nat (length (rcSeq record)) - a)
                          (if decide (a = Z.of_nat (length (rcSeq record)))
                           then RevCom pair (rcSeq record)
                           else take (Z.to_nat (b - a))
                                  (drop (Z.to_nat a) (RevCom pair (rcSeq record))))))).
Proof.
  intros Hstream Hrun. eexists. split.
  - by apply (run_output threads iter).
  - intros line. apply elem_of_run_rows.
Qed.

(** X4: every row has strand 1 or -1, and with [onlyPositiveStrand] every
    row has strand 1. *)
Theorem only_positive_strand_rows (threads : nat)
    (iter : Z → nat → list (string * Regexp))
    (input : list FastaRecordChunk) (arrivals : list LocationChunk) :
  chunk_stream input →
  pipeline_run pair Regexp FindAllSubmatchIndex onlyPositiveStrand threads iter
    input arrivals →
  ∃ lines, output pair patterns arrivals = Some (Header :: lines) ∧
    ∀ line, line ∈ lines →
      ∃ row, line = Match row ∧ (strand row = 1 ∨ strand row = -1) ∧
        (onlyPositiveStrand = true → strand row = 1).
Proof.
  intros Hstream Hrun. eexists. split.
  - by apply (run_output threads iter).
  - intros line Hline.
    apply elem_of_run_rows in Hline
      as (chunk & j & record & entry & a & b & _ & _ & _ & [[_ ->]|(Honly & _ & ->)]).
    + eexists. split; [done|]. simpl. auto.
    + eexists. split; [done|]. simpl. split; [auto|]. intros Htrue. congruence.
Qed.

(** X5: when no pattern matches any record of the input on a searched
    strand, and so for an input without chunks or records, the output is
    the header line alone. *)
Theorem no_match_header_only (threads : nat)
    (iter : Z → nat → list (string * Regexp))
    (input : list FastaRecordChunk) (arrivals : list LocationChunk) :
  chunk_stream input →
  pipeline_run pair Regexp FindAllSubmatchIndex onlyPositiveStrand threads iter
    input arrivals →
  (∀ chunk j record entry,
     chunk ∈ input → fcData chunk !! j = Some record → entry ∈ iter (fcID chunk) j →
     FindAllSubmatchIndex entry.2 (rcSeq record) = [] ∧
     (onlyPositiveStrand = false →
      FindAllSubmatchIndex entry.2 (RevCom pair (rcSeq record)) = [])) →
  output pair patterns arrivals = Some [Header].
Proof.
  intros Hstream Hrun Hnone. rewrite (run_output threads iter input arrivals) by done.
  do 2 f_equal.
  destruct (results _ _ _ _ iter input ≫= rows_of_chunk pair patterns)
    as [|line lines] eqn:Hlines; [done|]. exfalso.
  assert (line ∈ line :: lines) as Hin by left. rewrite <- Hlines in Hin.
  apply elem_of_run_rows in Hin
    as (chunk & j & record & entry & a & b & Hchunk & Hj & Hentry & Hline).
  destruct (Hnone chunk j record entry Hchunk Hj Hentry) as [Hf Hr].
  destruct Hline as [[Hab _]|(Honly & Hab & _)].
  - rewrite Hf in Hab. by apply elem_of_nil in Hab.
  - rewrite (Hr Honly) in Hab. by apply elem_of_nil in Hab.
Qed.

Lemma concat_imap_Permutation {A B} (f g : nat → A → list B) (l : list A) :
  (∀ j x, f j x ≡ₚ g j x) → concat (imap f l) ≡ₚ concat (imap g l).
Proof.
  revert f g. induction l as [|x l IH]; intros f g Hfg; simpl; [done|].
  rewrite (Hfg 0%nat x). apply Permutation_app_head, IH. intros j y. apply Hfg.
Qed.

(** X6: two runs on the same input, with any numbers of workers, in
    which the pattern map is visited in different orders, write the same
    rows: the outputs are the header followed by lists of rows that are
    permutations of each other. *)
Theorem map_order_permutes_rows (threads1 threads2 : nat)
    (iter1 iter2 : Z → nat → list (string * Regexp))
    (input : list FastaRecordChunk) (arrivals1 arrivals2 : list LocationChunk) :
  chunk_stream input →
  (∀ cid j, iter1 cid j ≡ₚ iter2 cid j) →
  pipeline_run pair Regexp FindAllSubmatchIndex onlyPositiveStrand threads1 iter1
    input arrivals1 →
  pipeline_run pair Regexp FindAllSubmatchIndex onlyPositiveStrand threads2 iter2
    input arrivals2 →
  ∃ lines1 lines2,
    output pair patterns arrivals1 = Some (Header :: lines1) ∧
    output pair patterns arrivals2 = Some (Header :: lines2) ∧
    lines1 ≡ₚ lines2.
Proof.
  intros Hstream Hiter Hrun1 Hrun2. eexists. eexists.
  split; [by apply (run_output threads1 iter1 input arrivals1)|].
  split; [by apply (run_output threads2 iter2 input arrivals2)|].
  unfold results. clear Hstream Hrun1 Hrun2.
  induction input as [|chunk input IH]; [done|].
  rewrite !fmap_cons, !bind_cons. apply Permutation_app; [|exact IH].
  unfold rows_of_chunk. apply bind_Permutation.
  rewrite !worker_Data. apply concat_imap_Permutation.
  intros j record. apply locate_record_Permutation, Hiter.
Qed.

(** X7: with one worker the results arrive in the order of the input and
    the receiver never buffers: when the channel is closed every chunk is
    written, the buffer is empty and the final pass writes nothing. *)
Theorem single_worker_never_buffers (iter : Z → nat → list (string * Regexp))
    (input : list FastaRecordChunk) (arrivals : list LocationChunk) :
  chunk_stream input →
  Z.of_nat (length input) ≤ 2 ^ 64 →
  pipeline_run pair Regexp FindAllSubmatchIndex onlyPositiveStrand 1 iter
    input arrivals →
  ∃ st, receive pair patterns receiver_start arrivals = Some st ∧
    chunks st = ∅ ∧ flushed st = arrivals ∧ drain pair patterns st = Some st.
Proof.
  intros Hstream Hbound Hrun. apply single_worker_arrivals in Hrun as ->.
  destruct (receive_in_order pair patterns
              (results pair Regexp FindAllSubmatchIndex onlyPositiveStrand iter input)
              receiver_start 0) as (st & Hst & Hempty & Hfl); try done.
  - unfold results at 2. by rewrite results_ID, length_fmap.
  - unfold results. by rewrite length_fmap.
  - apply Forall_fmap, Forall_forall. intros chunk _. by apply worker_in_range.
  - exists st. split; [done|]. split; [done|]. split; [done|].
    unfold drain. rewrite Hempty. done.
Qed.
End OutputContract.
End OutputFacts.

(** * Workers and tokens *)

Section CoordinatorFacts.
Variable pair : byte → byte.
Variable Regexp : Type.
Variable FindAllSubmatchIndex : Regexp → bytes → list (Z * Z).
Variable onlyPositiveStrand : bool.

Lemma running_bounded threads iter s s' :
  rtc (coordinator_step pair Regexp FindAllSubmatchIndex onlyPositiveStrand threads iter)
      s s' →
  (length (running s) ≤ threads)%nat → (length (running s') ≤ threads)%nat.
Proof.
  induction 1 as [|s1 s2 s3 Hstep _ IH]; intros Hlen; [done|]. apply IH.
  destruct Hstep as [chunk rest run out Hfree|rest run1 result run2 out]; simpl in *.
  - rewrite length_app. simpl. lia.
  - rewrite length_app in Hlen |- *. simpl in Hlen. lia.
Qed.

Lemma send_all threads iter rest run : ∀ out,
  rtc (coordinator_step pair Regexp FindAllSubmatchIndex onlyPositiveStrand threads iter)
      (mkCoordinator rest run out) (mkCoordinator rest [] (out ++ run)).
Proof.
  induction run as [|result run IH]; intros out.
  - rewrite app_nil_r. apply rtc_refl.
  - eapply rtc_l; [apply (step_send _ _ _ _ _ _ _ [] _ run)|]. simpl.
    specialize (IH (out ++ [result])). by rewrite <- app_assoc in IH.
Qed.

Lemma finish_from_idle threads iter rest : ∀ out,
  (0 < threads)%nat →
  rtc (coordinator_step pair Regexp FindAllSubmatchIndex onlyPositiveStrand threads iter)
      (mkCoordinator rest [] out)
      (mkCoordinator [] [] (out ++ results pair Regexp FindAllSubmatchIndex
                                      onlyPositiveStrand iter rest)).
Proof.
  induction rest as [|chunk rest IH]; intros out Hthreads; simpl.
  - rewrite app_nil_r. apply rtc_refl.
  - eapply rtc_l; [by apply step_dispatch|]. simpl.
    eapply rtc_l; [apply (step_send _ _ _ _ _ _ _ [] _ [])|]. simpl.
    specialize (IH (out ++ [worker pair Regexp FindAllSubmatchIndex
                              onlyPositiveStrand (iter (fcID chunk)) chunk]) Hthreads).
    by rewrite <- app_assoc in IH.
Qed.

(** X8: at every moment of a run at most [threads] workers hold a token,
    what has been sent or is being computed are results of chunks of the
    input, and from every such moment the run can be completed: the
    workers that run send their results and the remaining chunks are
    handed out. *)
Theorem workers_bounded_and_finish (threads : nat)
    (iter : Z → nat → list (string * Regexp))
    (input : list FastaRecordChunk) (s : Coordinator) :
  (0 < threads)%nat →
  rtc (coordinator_step pair Regexp FindAllSubmatchIndex onlyPositiveStrand threads iter)
      (mkCoordinator input [] []) s →
  (length (running s) ≤ threads)%nat ∧
  sent s ++ running s ++
    results pair Regexp FindAllSubmatchIndex onlyPositiveStrand iter (todo s)
  ≡ₚ results pair Regexp FindAllSubmatchIndex onlyPositiveStrand iter input ∧
  ∃ arrivals,
    rtc (coordinator_step pair Regexp FindAllSubmatchIndex onlyPositiveStrand threads iter)
        s (mkCoordinator [] [] arrivals) ∧
    pipeline_run pair Regexp FindAllSubmatchIndex onlyPositiveStrand threads iter
      input arrivals.
Proof.
  intros Hthreads Hreach. split; [|split].
  - apply (running_bounded threads iter _ _ Hreach). simpl. lia.
  - apply coordinator_steps_keep in Hreach. unfold in_pipeline in Hreach.
    simpl in Hreach. by rewrite Hreach.
  - destruct s as [rest run out].
    exists ((out ++ run) ++ results pair Regexp FindAllSubmatchIndex
                              onlyPositiveStrand iter rest).
    assert (rtc (coordinator_step pair Regexp FindAllSubmatchIndex onlyPositiveStrand
                   threads iter)
                (mkCoordinator rest run out)
                (mkCoordinator [] []
                   ((out ++ run) ++ results pair Regexp FindAllSubmatchIndex
                                      onlyPositiveStrand iter rest))) as Hfinish.
    { etrans; [apply send_all|]. by apply finish_from_idle. }
    split; [done|]. unfold pipeline_run. by etrans.
Qed.

(** X9: the locations of an entry follow the order of the matches: when
    the matcher returns the matches of a text from left to right without
    overlap, a forward entry lists its locations from left to right and a
    reverse entry lists them, in forward coordinates, from right to left. *)
Theorem locations_follow_matches (order : list (string * Regexp))
    (record : FastaRecord) (info : LocationInfo) :
  (∀ entry, entry ∈ order →
     StronglySorted (λ x y : Z * Z, x.2 ≤ y.1)
       (FindAllSubmatchIndex entry.2 (rcSeq record)) ∧
     StronglySorted (λ x y : Z * Z, x.2 ≤ y.1)
       (FindAllSubmatchIndex entry.2 (RevCom pair (rcSeq record)))) →
  info ∈ locate_record pair Regexp FindAllSubmatchIndex onlyPositiveStrand order record [] →
  (Strand info = 1 ∧ StronglySorted (λ x y : Z * Z, x.2 ≤ y.1) (Locations info)) ∨
  (Strand info = -1 ∧ StronglySorted (λ x y : Z * Z, y.2 ≤ x.1) (Locations info)).
Proof.
  intros Hsorted Hinfo.
  apply elem_of_locate_record in Hinfo as (entry & Hentry & [Hf|Hr]).
  - apply forward_matches_spec in Hf as [-> _]. left. split; [done|].
    by apply Hsorted.
  - apply reverse_matches_spec in Hr as (_ & -> & _). right. split; [done|]. simpl.
    destruct (Hsorted entry Hentry) as [_ Hrev].
    induction Hrev as [|loc found _ IH Hloc]; [constructor|].
    rewrite fmap_cons. constructor; [exact IH|].
    apply Forall_fmap. eapply Forall_impl; [exact Hloc|].
    intros loc' Hle. simpl in *. lia.
Qed.
End CoordinatorFacts.

(** * Further properties of the pattern preparation *)

Section PatternMore.
Variable Regexp : Type.
Variable Compile : string → option Regexp.
Variable Degenerate2Regexp : bytes → string.
Variable NewSeq : bytes → option bytes.
Variable GetSeqsMap : string → option (gmap string FastaRecord).
Variables degenerate ignoreCase : bool.

Lemma add_flag_pattern_step acc p :
  add_flag_pattern Regexp Compile Degenerate2Regexp NewSeq degenerate ignoreCase
    (Some acc) p
  = re ← flag_pattern_regexp Regexp Compile Degenerate2Regexp NewSeq degenerate
          ignoreCase p;
    Some (<[p := String.list_byte_of_string p]> acc.1, <[p := re]> acc.2).
Proof.
  unfold add_flag_pattern, flag_pattern_regexp. simpl.
  destruct degenerate; simpl; [|done].
  by destruct (NewSeq (String.list_byte_of_string p)).
Qed.

Lemma add_flag_pattern_stopped (l : list string) :
  foldl (add_flag_pattern Regexp Compile Degenerate2Regexp NewSeq degenerate ignoreCase)
        None l = None.
Proof. induction l as [|p l IH]; [done|]. simpl. exact IH. Qed.

Lemma flag_patterns_spec (l : list string) : ∀ acc maps,
  foldl (add_flag_pattern Regexp Compile Degenerate2Regexp NewSeq degenerate ignoreCase)
        (Some acc) l = Some maps →
  ∀ q,
    (q ∈ l →
       maps.1 !! q = Some (String.list_byte_of_string q) ∧
       is_Some (maps.2 !! q) ∧
       maps.2 !! q = flag_pattern_regexp Regexp Compile Degenerate2Regexp NewSeq
                       degenerate ignoreCase q) ∧
    (q ∉ l → maps.1 !! q = acc.1 !! q ∧ maps.2 !! q = acc.2 !! q).
Proof.
  induction l as [|p l IH]; intros acc maps Hrun q.
  - simpl in Hrun. injection Hrun as <-. split; [|done]. by intros ?%elem_of_nil.
  - change (foldl ?f (Some acc) (p :: l)) with (foldl f (f (Some acc) p) l) in Hrun.
    rewrite add_flag_pattern_step in Hrun.
    destruct (flag_pattern_regexp _ _ _ _ _ _ p) as [re|] eqn:Hre; simpl in Hrun;
      [|by rewrite add_flag_pattern_stopped in Hrun].
    destruct (IH _ maps Hrun q) as [Hin Hout]. simpl in Hout. split.
    + intros Hq. destruct (decide (q ∈ l)) as [Hl|Hl]; [by apply Hin|].
      apply elem_of_cons in Hq as [->|Hq]; [|done].
      destruct (Hout Hl) as [-> ->]. rewrite !lookup_insert_eq. by rewrite Hre.
    + intros Hq. apply not_elem_of_cons in Hq as [Hne Hq].
      destruct (Hout Hq) as [-> ->]. by rewrite !lookup_insert_ne.
Qed.

Lemma flag_patterns_ok (l : list string) : ∀ acc,
  Forall (λ p, is_Some (flag_pattern_regexp Regexp Compile Degenerate2Regexp NewSeq
                          degenerate ignoreCase p)) l →
  is_Some (foldl (add_flag_pattern Regexp Compile Degenerate2Regexp NewSeq degenerate
                    ignoreCase) (Some acc) l).
Proof.
  induction l as [|p l IH]; intros acc Hl; [by eexists|].
  apply Forall_cons in Hl as [[re Hre] Hl].
  change (foldl ?f (Some acc) (p :: l)) with (foldl f (f (Some acc) p) l).
  rewrite add_flag_pattern_step, Hre. simpl. apply IH, Hl.
Qed.

(** X10: without a pattern file, [patterns] holds exactly the listed
    patterns, each under its own text with its bytes, and [regexps] holds
    under the same keys the compiled expressions: the text itself, or its
    expansion with [-d], prefixed by (?i) with [-i]. *)
Theorem listed_patterns_prepared (pattern : list string)
    (maps : gmap string bytes * gmap string Regexp) :
  prepare_patterns Regexp Compile Degenerate2Regexp NewSeq GetSeqsMap degenerate ignoreCase
    pattern "" = Some maps →
  ∀ p,
    (p ∈ pattern →
       maps.1 !! p = Some (String.list_byte_of_string p) ∧
       is_Some (maps.2 !! p) ∧
       maps.2 !! p = flag_pattern_regexp Regexp Compile Degenerate2Regexp NewSeq
                       degenerate ignoreCase p ∧
       (degenerate = false →
        maps.2 !! p = Compile (if ignoreCase then "(?i)" +:+ p else p))) ∧
    (p ∉ pattern → maps.1 !! p = None ∧ maps.2 !! p = None).
Proof.
  unfold prepare_patterns. intros Hrun p.
  case_decide as Hnone; [done|]. rewrite decide_False in Hrun by (intros H; by apply H).
  destruct (flag_patterns_spec pattern (∅, ∅) maps Hrun p) as [Hin Hout]. split.
  - intros Hp. destruct (Hin Hp) as (? & ? & Hre). repeat split; try done.
    intros Hd. rewrite Hre. unfold flag_pattern_regexp, with_flags. by rewrite Hd.
  - intros Hp. destruct (Hout Hp) as [-> ->]. simpl. by rewrite !lookup_empty.
Qed.

(** X11: the preparation stops the program exactly when no pattern is
    given at all, when the pattern file cannot be read or one of its
    records does not compile, or, without a file, when a listed pattern
    is refused by [seq.NewSeq] or [regexp.Compile]; one bad pattern is
    enough, whatever the others are. *)
Theorem prepare_patterns_fails (pattern : list string) (patternFile : string) :
  prepare_patterns Regexp Compile Degenerate2Regexp NewSeq GetSeqsMap degenerate ignoreCase
    pattern patternFile = None ↔
  (pattern = [] ∧ patternFile = "") ∨
  (patternFile ≠ "" ∧
   (GetSeqsMap patternFile = None ∨
    ∃ records name record,
      GetSeqsMap patternFile = Some records ∧ records !! name = Some record ∧
      Compile (file_pattern_source Degenerate2Regexp degenerate ignoreCase record) = None)) ∨
  (patternFile = "" ∧
   ∃ p, p ∈ pattern ∧
     flag_pattern_regexp Regexp Compile Degenerate2Regexp NewSeq degenerate ignoreCase p = None).
Proof.
  unfold prepare_patterns. split.
  - intros Hrun. case_decide as Hnone.
    { left. destruct Hnone as [Hlen ->]. split; [|done]. by apply nil_length_inv. }
    case_decide as Hfile.
    + right. left. split; [done|].
      destruct (GetSeqsMap patternFile) as [records|]; [|by left]. right.
      simpl in Hrun.
      destruct (decide (Forall (λ e : string * FastaRecord,
                  is_Some (Compile (file_pattern_source Degenerate2Regexp
                    degenerate ignoreCase e.2)))
                  (map_to_list records))) as [Hall|Hnot].
      { destruct (file_patterns_ok Regexp Compile Degenerate2Regexp degenerate ignoreCase
                    _ (∅, ∅) Hall) as [maps Hmaps].
        congruence. }
      apply not_Forall_Exists in Hnot; [|apply _].
      apply Exists_exists in Hnot as ([name record] & Hin & Hbad).
      exists records, name, record. split; [done|].
      split; [by apply elem_of_map_to_list|].
      simpl in Hbad. by apply eq_None_not_Some.
    + right. right.
      assert (patternFile = "") as -> by (by destruct (decide (patternFile = ""))).
      split; [done|].
      destruct (decide (Forall (λ p, is_Some (flag_pattern_regexp Regexp Compile
        Degenerate2Regexp NewSeq degenerate ignoreCase p)) pattern)) as [Hall|Hnot].
      { destruct (flag_patterns_ok _ (∅, ∅) Hall) as [maps Hmaps]. congruence. }
      apply not_Forall_Exists in Hnot; [|apply _].
      apply Exists_exists in Hnot as (p & Hin & Hbad).
      exists p. split; [done|]. by apply eq_None_not_Some.
  - intros [[-> ->]|[(Hfile & Hbad)|(-> & p & Hp & Hbad)]].
    + by rewrite decide_True.
    + rewrite decide_False by tauto. rewrite decide_True by done.
      destruct Hbad as [->|(records & name & record & -> & Hrec & Hbad)]; [done|].
      simpl.
      destruct (foldl _ _ (map_to_list records)) as [maps|] eqn:Hrun; [|done].
      exfalso.
      destruct (file_patterns_spec Regexp Compile Degenerate2Regexp degenerate ignoreCase
                  _ _ _ Hrun (NoDup_fst_map_to_list records) name) as [Hin _].
      apply elem_of_map_to_list in Hrec.
      destruct (Hin record Hrec) as (_ & [re Hre] & Heq). congruence.
    + destruct pattern as [|p0 pattern]; [by apply elem_of_nil in Hp|].
      rewrite decide_False by (simpl; intros [? _]; lia).
      rewrite decide_False by (intros H; by apply H).
      destruct (foldl _ _ (p0 :: pattern)) as [maps|] eqn:Hrun; [|done].
      exfalso.
      destruct (flag_patterns_spec _ _ _ Hrun p) as [Hin _].
      destruct (Hin Hp) as (_ & [re Hre] & Heq). congruence.
Qed.

Lemma flag_patterns_same_elements (l1 l2 : list string) maps :
  (∀ p, p ∈ l1 ↔ p ∈ l2) →
  foldl (add_flag_pattern Regexp Compile Degenerate2Regexp NewSeq degenerate ignoreCase)
    (Some (∅, ∅)) l1 = Some maps →
  foldl (add_flag_pattern Regexp Compile Degenerate2Regexp NewSeq degenerate ignoreCase)
    (Some (∅, ∅)) l2 = Some maps.
Proof.
  intros Hsame Hrun1.
  destruct (flag_patterns_ok l2 (∅, ∅)) as [maps2 Hrun2].
  { apply Forall_forall. intros p Hp. apply Hsame in Hp.
    destruct (flag_patterns_spec _ _ _ Hrun1 p) as [Hin _].
    destruct (Hin Hp) as (_ & Hsome & <-). done. }
  rewrite Hrun2. f_equal. destruct maps as [pats res], maps2 as [pats2 res2].
  f_equal; apply map_eq; intros q.
  - destruct (flag_patterns_spec _ _ _ Hrun1 q) as [Hin1 Hout1].
    destruct (flag_patterns_spec _ _ _ Hrun2 q) as [Hin2 Hout2]. simpl in *.
    destruct (decide (q ∈ l2)) as [Hq|Hq].
    + destruct (Hin2 Hq) as (-> & _). apply Hsame in Hq.
      by destruct (Hin1 Hq) as (-> & _).
    + destruct (Hout2 Hq) as [-> _].
      assert (q ∉ l1) as Hq1 by (by rewrite Hsame). by destruct (Hout1 Hq1) as [-> _].
  - destruct (flag_patterns_spec _ _ _ Hrun1 q) as [Hin1 Hout1].
    destruct (flag_patterns_spec _ _ _ Hrun2 q) as [Hin2 Hout2]. simpl in *.
    destruct (decide (q ∈ l2)) as [Hq|Hq].
    + destruct (Hin2 Hq) as (_ & _ & ->). apply Hsame in Hq.
      by destruct (Hin1 Hq) as (_ & _ & ->).
    + destruct (Hout2 Hq) as [_ ->].
      assert (q ∉ l1) as Hq1 by (by rewrite Hsame). by destruct (Hout1 Hq1) as [_ ->].
Qed.

(** X12: without a pattern file the maps depend on the set of the listed
    patterns only: the order of the list and repetitions in it change
    nothing. *)
Theorem listed_patterns_as_a_set (pattern1 pattern2 : list string) :
  (∀ p, p ∈ pattern1 ↔ p ∈ pattern2) →
  prepare_patterns Regexp Compile Degenerate2Regexp NewSeq GetSeqsMap degenerate ignoreCase
    pattern1 ""
  = prepare_patterns Regexp Compile Degenerate2Regexp NewSeq GetSeqsMap degenerate ignoreCase
      pattern2 "".
Proof.
  intros Hsame. unfold prepare_patterns.
  destruct pattern1 as [|p1 l1], pattern2 as [|p2 l2].
  - done.
  - exfalso. assert (p2 ∈ p2 :: l2) as Hin by left.
    apply Hsame in Hin. by apply elem_of_nil in Hin.
  - exfalso. assert (p1 ∈ p1 :: l1) as Hin by left.
    apply Hsame in Hin. by apply elem_of_nil in Hin.
  - rewrite !(decide_False (P := _ ∧ "" = "")) by (simpl; intros [? _]; lia).
    rewrite !(decide_False (P := "" ≠ "")) by (intros H; by apply H).
    destruct (foldl _ _ (p1 :: l1)) as [maps1|] eqn:Hrun1.
    + symmetry. by apply (flag_patterns_same_elements (p1 :: l1)).
    + destruct (foldl _ _ (p2 :: l2)) as [maps2|] eqn:Hrun2; [|done].
      apply (flag_patterns_same_elements _ (p1 :: l1)) in Hrun2; [congruence|].
      intros p. symmetry. apply Hsame.
Qed.

(** X13: when the preparation succeeds, with a file or with a list,
    [patterns] and [regexps] have the same keys: the receiver finds the
    bytes of the pattern of every entry a worker can produce. *)
Theorem pattern_maps_same_keys (pattern : list string) (patternFile : string)
    (maps : gmap string bytes * gmap string Regexp) :
  prepare_patterns Regexp Compile Degenerate2Regexp NewSeq GetSeqsMap degenerate ignoreCase
    pattern patternFile = Some maps →
  dom maps.1 = dom maps.2 ∧
  ∀ name re, maps.2 !! name = Some re →
    ∃ raw, maps.1 !! name = Some raw ∧ default [] (maps.1 !! name) = raw ∧
      (patternFile = "" → raw = String.list_byte_of_string name).
Proof.
  intros Hrun.
  assert (∀ name, (is_Some (maps.1 !! name) ↔ is_Some (maps.2 !! name)) ∧
            (patternFile = "" → ∀ raw, maps.1 !! name = Some raw →
               raw = String.list_byte_of_string name)) as Hkeys.
  { intros name. unfold prepare_patterns in Hrun.
    case_decide as Hnone; [done|]. case_decide as Hfile.
    - split; [|done].
      destruct (GetSeqsMap patternFile) as [records|]; [|done]. simpl in Hrun.
      destruct (file_patterns_spec Regexp Compile Degenerate2Regexp degenerate ignoreCase
                  _ _ _ Hrun (NoDup_fst_map_to_list records) name) as [Hin Hout].
      destruct (records !! name) as [record|] eqn:Hrec.
      + apply elem_of_map_to_list in Hrec.
        destruct (Hin record Hrec) as (-> & ? & _). split; [done|eauto].
      + destruct Hout as [-> ->]; [|simpl; by rewrite !lookup_empty].
        intros ([n r] & -> & Hn%elem_of_map_to_list)%list_elem_of_fmap.
        simpl in Hrec. congruence.
    - destruct (flag_patterns_spec _ _ _ Hrun name) as [Hin Hout].
      destruct (decide (name ∈ pattern)) as [Hp|Hp].
      + destruct (Hin Hp) as (Hraw & ? & _). rewrite Hraw. split; [split; [done|eauto]|].
        intros _ raw. congruence.
      + destruct (Hout Hp) as [-> ->]. simpl. rewrite !lookup_empty.
        split; [done|]. by intros _ raw. }
  split.
  - apply set_eq. intros name. rewrite !elem_of_dom. apply Hkeys.
  - intros name re Hre. destruct (Hkeys name) as [Hiff Hraw].
    destruct (proj2 Hiff) as [raw Hr]; [eauto|].
    exists raw. rewrite Hr. split; [done|]. split; [done|]. intros Hf. by apply Hraw.
Qed.
End PatternMore.

(** * Several input files *)

Section FilesFacts.
Variable pair : byte → byte.
Variable patterns : gmap string bytes.

Lemma flush_after_lines written st chunk :
  flush pair patterns (after_lines written st) chunk
  = after_lines written <$> flush pair patterns st chunk.
Proof.
  unfold flush. destruct (write_chunk pair patterns chunk) as [lines|]; [|done].
  simpl. unfold after_lines. simpl. by rewrite app_assoc.
Qed.

Lemma check_buffered_after_lines written fuel : ∀ st,
  check_buffered pair patterns fuel (after_lines written st)
  = after_lines written <$> check_buffered pair patterns fuel st.
Proof.
  induction fuel as [|fuel IH]; intros st; simpl.
  - by destruct (chunks st !! id st).
  - destruct (chunks st !! id st) as [chunk|]; [|done].
    rewrite flush_after_lines.
    destruct (flush pair patterns st chunk) as [st1|]; [|done]. simpl.
    exact (IH (mkReceiver (uint64_incr (id st1)) (delete (ID chunk) (chunks st1))
                 (outfh st1) (flushed st1))).
Qed.

Lemma receive_chunk_after_lines written st chunk :
  receive_chunk pair patterns (after_lines written st) chunk
  = after_lines written <$> receive_chunk pair patterns st chunk.
Proof.
  unfold receive_chunk. simpl. case_decide.
  - rewrite flush_after_lines. by destruct (flush pair patterns st chunk).
  - rewrite check_buffered_after_lines.
    by destruct (check_buffered pair patterns (size (chunks st)) st).
Qed.

Lemma receive_after_lines written ch : ∀ st,
  receive pair patterns (after_lines written st) ch
  = after_lines written <$> receive pair patterns st ch.
Proof.
  induction ch as [|chunk ch IH]; intros st; simpl; [done|].
  rewrite receive_chunk_after_lines.
  destruct (receive_chunk pair patterns st chunk) as [st1|]; [|done]. simpl. apply IH.
Qed.

Lemma flush_ids_after_lines written ids : ∀ st,
  flush_ids pair patterns (after_lines written st) ids
  = after_lines written <$> flush_ids pair patterns st ids.
Proof.
  induction ids as [|k ids IH]; intros st; simpl; [done|].
  rewrite flush_after_lines.
  destruct (flush pair patterns st _) as [st1|]; [|done]. simpl. apply IH.
Qed.

Lemma receiver_on_after_lines written ch :
  receiver_on pair patterns written ch
  = after_lines written <$> receiver_on pair patterns [] ch.
Proof.
  unfold receiver_on.
  assert (mkReceiver 0 ∅ written [] = after_lines written (mkReceiver 0 ∅ [] [])) as ->.
  { unfold after_lines. simpl. by rewrite app_nil_r. }
  rewrite receive_after_lines.
  destruct (receive pair patterns _ ch) as [st|]; [|done]. simpl.
  rewrite !drain_flush_ids. apply flush_ids_after_lines.
Qed.

(** X14: for several input files the receiver starts again for every
    file and the output is the header, once, followed by the rows of the
    first file, then the rows of the second file, and so on: each file
    contributes the rows it gives when it is the only file. *)
Theorem files_written_in_order (files : list (list LocationChunk))
    (rows : list (list Line)) :
  Forall2 (λ ch lines, output pair patterns ch = Some (Header :: lines)) files rows →
  locate_files pair patterns [Header] files = Some (Header :: concat rows).
Proof.
  intros Hfiles.
  assert (∀ written, locate_files pair patterns written files
                     = Some (written ++ concat rows)) as Hgen.
  { induction Hfiles as [|ch lines files rows Hch _ IH]; intros written; simpl.
    - by rewrite app_nil_r.
    - rewrite receiver_on_after_lines.
      assert (receiver pair patterns ch = receiver_on pair patterns [Header] ch)
        as Hstart by reflexivity.
      unfold output in Hch. rewrite Hstart, receiver_on_after_lines in Hch.
      destruct (receiver_on pair patterns [] ch) as [st|]; [|done]. simpl in *.
      injection Hch as Hch. rewrite IH, Hch. by rewrite app_assoc. }
  apply (Hgen [Header]).
Qed.
End FilesFacts.

(** * Arrivals with any IDs *)

Section ReceiverAny.
Variable pair : byte → byte.
Variable patterns : gmap string bytes.

Lemma check_buffered_any fuel : ∀ rcvd st,
  arrived_only rcvd st → Forall chunk_in_range rcvd →
  (size (chunks st) ≤ fuel)%nat →
  ∃ st', check_buffered pair patterns fuel st = Some st' ∧ arrived_only rcvd st'.
Proof.
  induction fuel as [|fuel IH]; intros rcvd st [Hkeys Hfl] Hrange Hsize; simpl.
  - apply Nat.le_0_r, map_size_empty_iff in Hsize.
    assert (chunks st !! id st = None) as -> by (by rewrite Hsize, lookup_empty).
    by exists st.
  - destruct (chunks st !! id st) as [c|] eqn:Hc; [|by exists st].
    destruct (Hkeys _ _ Hc) as [HID Hin].
    rewrite Forall_forall in Hrange.
    destruct (flush_in_range pair patterns st c (Hrange c Hin)) as (lines & _ & ->).
    simpl. apply IH.
    + split; simpl.
      * intros k c' Hk. apply lookup_delete_Some in Hk as [_ Hk]. by apply Hkeys.
      * intros c' [Hc'|Hc']%elem_of_app; [by apply Hfl|].
        apply list_elem_of_singleton in Hc' as ->. done.
    + by apply Forall_forall.
    + simpl. rewrite map_size_delete, HID, Hc. lia.
Qed.

Lemma receive_any (rest : list LocationChunk) : ∀ rcvd st,
  arrived_only rcvd st → Forall chunk_in_range (rcvd ++ rest) →
  ∃ st', receive pair patterns st rest = Some st' ∧ arrived_only (rcvd ++ rest) st'.
Proof.
  induction rest as [|chunk rest IH]; intros rcvd st Hinv Hrange; simpl.
  - exists st. by rewrite app_nil_r.
  - rewrite (cons_middle chunk), app_assoc in Hrange |- *.
    assert (Forall chunk_in_range (rcvd ++ [chunk])) as Hrange1
      by (by apply Forall_app in Hrange as [? _]).
    assert (arrived_only (rcvd ++ [chunk]) st) as Hinv1.
    { destruct Hinv as [Hkeys Hfl]. split.
      - intros k c Hk. destruct (Hkeys k c Hk). split; [done|].
        apply elem_of_app. by left.
      - intros c Hc. apply elem_of_app. left. by apply Hfl. }
    assert (chunk ∈ rcvd ++ [chunk]) as Hchunk by (apply elem_of_app; right; left).
    assert (∃ st1, receive_chunk pair patterns st chunk = Some st1 ∧
                   arrived_only (rcvd ++ [chunk]) st1) as (st1 & -> & Hst1).
    { unfold receive_chunk. case_decide.
      - rewrite Forall_forall in Hrange1.
        destruct (flush_in_range pair patterns st chunk (Hrange1 _ Hchunk))
          as (lines & _ & ->). simpl.
        eexists. split; [done|]. destruct Hinv1 as [Hkeys Hfl]. split; simpl; [done|].
        intros c [Hc|Hc]%elem_of_app; [by apply Hfl|].
        by apply list_elem_of_singleton in Hc as ->.
      - destruct (check_buffered_any (size (chunks st)) _ st Hinv1 Hrange1)
          as (st1 & -> & [Hkeys Hfl]); [done|]. simpl.
        eexists. split; [done|]. split; simpl; [|done].
        intros k c [[<- <-]|[_ Hk]]%lookup_insert_Some; [done|]. by apply Hkeys. }
    simpl. by apply IH.
Qed.

(** X15: the receiver accepts every sequence of chunks, also with
    repeated IDs or with IDs that come too late: no chunk is refused,
    the loops end, and every chunk written is one of the chunks that
    arrived. *)
Theorem receiver_accepts_any_ids (arrivals : list LocationChunk) :
  Forall chunk_in_range arrivals →
  ∃ st, receiver pair patterns arrivals = Some st ∧
    ∀ chunk, chunk ∈ flushed st → chunk ∈ arrivals.
Proof.
  intros Hrange. unfold receiver.
  destruct (receive_any arrivals [] receiver_start) as (st & -> & [Hkeys Hfl]).
  { split; simpl; [|by intros c ?%elem_of_nil].
    intros k c Hk. by rewrite lookup_empty in Hk. }
  { done. }
  simpl in *. rewrite drain_flush_ids.
  destruct (flush_ids_in_range pair patterns (sortLocationChunkMapID (chunks st)) st)
    as (st' & -> & Hfl').
  { apply Forall_forall. intros k Hk. unfold sortLocationChunkMapID in Hk.
    rewrite merge_sort_Permutation in Hk.
    apply list_elem_of_fmap in Hk as ([k' c] & -> & Hin).
    apply elem_of_map_to_list in Hin. exists c. split; [done|].
    rewrite Forall_forall in Hrange. apply Hrange. by apply (Hkeys k'). }
  exists st'. split; [done|]. rewrite Hfl'.
  intros chunk [Hc|Hc]%elem_of_app; [by apply Hfl|].
  apply list_elem_of_fmap in Hc as (k & -> & Hk).
  unfold sortLocationChunkMapID in Hk. rewrite merge_sort_Permutation in Hk.
  apply list_elem_of_fmap in Hk as ([k' c] & -> & Hin).
  apply elem_of_map_to_list in Hin. simpl. rewrite Hin. simpl. by apply (Hkeys k').
Qed.
End ReceiverAny.

(** * The further properties on the example data *)

(** X2, witness: the results 3 and 0 arrive; chunks 1 and 2 never do. *)
Lemma receiver_sorts_distinct_ids_witness :
  NoDup (ID <$> example_gap_arrivals) ∧
  Forall (λ chunk, 0 ≤ ID chunk) example_gap_arrivals ∧
  Forall chunk_in_range example_gap_arrivals ∧
  ∃ st, receiver DNA_pair example_patterns example_gap_arrivals = Some st ∧
    flushed st ≡ₚ example_gap_arrivals ∧
    ID <$> flushed st = merge_sort Z.le (ID <$> example_gap_arrivals).
Proof.
  assert (NoDup (ID <$> example_gap_arrivals)) as Hnd.
  { simpl. apply NoDup_cons. split; [|apply NoDup_singleton].
    intros Hin. apply list_elem_of_singleton in Hin. lia. }
  assert (Forall (λ chunk, 0 ≤ ID chunk) example_gap_arrivals) as Hpos.
  { unfold example_gap_arrivals. repeat (apply Forall_cons; split; [simpl; lia|]).
    apply Forall_nil_2. }
  assert (Forall chunk_in_range example_gap_arrivals) as Hrange.
  { unfold example_gap_arrivals.
    repeat (apply Forall_cons; split;
            [apply (worker_in_range DNA_pair bytes literal_find false
                      literal_find_in_range)|]).
    apply Forall_nil_2. }
  split; [exact Hnd|]. split; [exact Hpos|]. split; [exact Hrange|].
  exact (receiver_sorts_distinct_ids DNA_pair example_patterns example_gap_arrivals
           Hnd Hpos Hrange).
Defined.

(** X3, witness: the run of [-p 'C*'] on the record A with two workers;
    the empty match at the end of the reverse complement T has the row
    with strand -1, start 1, end 0 and the text T. *)
Lemma output_rows_are_the_matches_witness :
  chunk_stream example_star_input ∧
  pipeline_run DNA_pair byte star_find false 2 (λ _ _, example_star_order)
    example_star_input
    (results DNA_pair byte star_find false (λ _ _, example_star_order)
       example_star_input) ∧
  ∃ lines,
    output DNA_pair example_star_patterns
      (results DNA_pair byte star_find false (λ _ _, example_star_order)
         example_star_input) = Some (Header :: lines) ∧
    Match (mkRow (letters "seq4") "C*" (letters "C*") (-1) 1 0 (letters "T")) ∈ lines.
Proof.
  assert (chunk_stream example_star_input) as Hstream by reflexivity.
  assert (pipeline_run DNA_pair byte star_find false 2 (λ _ _, example_star_order)
            example_star_input
            (results DNA_pair byte star_find false (λ _ _, example_star_order)
               example_star_input)) as Hrun.
  { unfold pipeline_run, example_star_input.
    eapply rtc_l; [apply step_dispatch; simpl; lia|]. simpl.
    eapply rtc_l;
      [apply (step_send DNA_pair byte star_find false 2 (λ _ _, example_star_order)
                [] [] _ [] [])|].
    apply rtc_refl. }
  split; [exact Hstream|]. split; [exact Hrun|].
  destruct (output_rows_are_the_matches DNA_pair byte star_find false
              example_star_patterns star_find_in_range 2 (λ _ _, example_star_order)
              example_star_input _ Hstream Hrun) as (lines & Hout & Hrows).
  exists lines. split; [exact Hout|].
  apply Hrows.
  exists (mkFastaChunk 0 [example_record4]), 0%nat, example_record4, ("C*", x43), 1, 1.
  split; [left|]. split; [reflexivity|]. split; [left|].
  right. split; [reflexivity|]. split; [vm_compute; right; left|reflexivity].
Defined.

(** X4, witness: the example input searched on the positive strand only. *)
Lemma only_positive_strand_rows_witness :
  chunk_stream example_input ∧
  pipeline_run DNA_pair bytes literal_find true 3 example_iter example_input
    (results DNA_pair bytes literal_find true example_iter example_input) ∧
  ∃ lines,
    output DNA_pair example_patterns
      (results DNA_pair bytes literal_find true example_iter example_input)
    = Some (Header :: lines) ∧
    ∀ line, line ∈ lines →
      ∃ row, line = Match row ∧ (strand row = 1 ∨ strand row = -1) ∧
        (true = true → strand row = 1).
Proof.
  assert (pipeline_run DNA_pair bytes literal_find true 3 example_iter example_input
            (results DNA_pair bytes literal_find true example_iter example_input))
    as Hrun by (apply pipeline_run_in_order; lia).
  split; [exact example_input_stream|]. split; [exact Hrun|].
  exact (only_positive_strand_rows DNA_pair bytes literal_find true example_patterns
           literal_find_in_range 3 example_iter example_input _
           example_input_stream Hrun).
Defined.

Lemma example_unmatched_none :
  ∀ chunk j record entry,
    chunk ∈ example_input_unmatched → fcData chunk !! j = Some record →
    entry ∈ example_iter (fcID chunk) j →
    literal_find entry.2 (rcSeq record) = [] ∧
    (false = false → literal_find entry.2 (RevCom DNA_pair (rcSeq record)) = []).
Proof.
  intros chunk j record entry Hchunk Hj Hentry.
  apply list_elem_of_singleton in Hchunk. subst chunk.
  destruct j as [|j]; [|done]. injection Hj as <-.
  apply elem_of_cons in Hentry as [->|Hentry]; [by vm_compute|].
  apply list_elem_of_singleton in Hentry. subst entry. by vm_compute.
Defined.

(** X5, witness: a chunk with the record TTTT, which has no AC and no GT. *)
Lemma no_match_header_only_witness :
  chunk_stream example_input_unmatched ∧
  pipeline_run DNA_pair bytes literal_find false 2 example_iter example_input_unmatched
    (example_results example_iter example_input_unmatched) ∧
  output DNA_pair example_patterns (example_results example_iter example_input_unmatched)
  = Some [Header].
Proof.
  assert (chunk_stream example_input_unmatched) as Hstream by reflexivity.
  assert (pipeline_run DNA_pair bytes literal_find false 2 example_iter
            example_input_unmatched
            (example_results example_iter example_input_unmatched))
    as Hrun by (apply pipeline_run_in_order; lia).
  split; [exact Hstream|]. split; [exact Hrun|].
  exact (no_match_header_only DNA_pair bytes literal_find false example_patterns
           literal_find_in_range 2 example_iter example_input_unmatched _
           Hstream Hrun example_unmatched_none).
Defined.

(** X6, witness: the example input with the two patterns visited in the
    two possible orders. *)
Lemma map_order_permutes_rows_witness :
  (∀ cid j, example_iter cid j ≡ₚ example_iter_swapped cid j) ∧
  ∃ lines1 lines2,
    output DNA_pair example_patterns (example_results example_iter example_input)
    = Some (Header :: lines1) ∧
    output DNA_pair example_patterns (example_results example_iter_swapped example_input)
    = Some (Header :: lines2) ∧
    lines1 ≡ₚ lines2.
Proof.
  assert (∀ cid j, example_iter cid j ≡ₚ example_iter_swapped cid j) as Hiter
    by (intros cid j; apply perm_swap).
  split; [exact Hiter|].
  apply (map_order_permutes_rows DNA_pair bytes literal_find false example_patterns
           literal_find_in_range 1 8 example_iter example_iter_swapped example_input
           _ _ example_input_stream Hiter).
  - apply pipeline_run_in_order. lia.
  - apply pipeline_run_in_order. lia.
Defined.

(** X7, witness: the example input with one worker. *)
Lemma single_worker_never_buffers_witness :
  chunk_stream example_input ∧
  Z.of_nat (length example_input) ≤ 2 ^ 64 ∧
  ∃ st, receive DNA_pair example_patterns receiver_start
          (example_results example_iter example_input) = Some st ∧
    chunks st = ∅ ∧ flushed st = example_results example_iter example_input ∧
    drain DNA_pair example_patterns st = Some st.
Proof.
  assert (Z.of_nat (length example_input) ≤ 2 ^ 64) as Hbound by (simpl; lia).
  split; [exact example_input_stream|]. split; [exact Hbound|].
  apply (single_worker_never_buffers DNA_pair bytes literal_find false example_patterns
           literal_find_in_range example_iter example_input _
           example_input_stream Hbound).
  apply pipeline_run_in_order. lia.
Defined.

(** X8, witness: the example input with two tokens, after the first chunk
    has been handed to a worker. *)
Lemma workers_bounded_and_finish_witness :
  (0 < 2)%nat ∧
  rtc (coordinator_step DNA_pair bytes literal_find false 2 example_iter)
      (mkCoordinator example_input [] [])
      (mkCoordinator [example_chunk1; example_chunk2] [example_worker example_chunk0] []) ∧
  (length [example_worker example_chunk0] ≤ 2)%nat ∧
  ∃ arrivals,
    pipeline_run DNA_pair bytes literal_find false 2 example_iter example_input arrivals.
Proof.
  assert (rtc (coordinator_step DNA_pair bytes literal_find false 2 example_iter)
            (mkCoordinator example_input [] [])
            (mkCoordinator [example_chunk1; example_chunk2]
               [example_worker example_chunk0] [])) as Hreach.
  { apply rtc_once.
    apply (step_dispatch DNA_pair bytes literal_find false 2 example_iter
             example_chunk0 [example_chunk1; example_chunk2] [] []).
    simpl. lia. }
  split; [lia|]. split; [exact Hreach|].
  destruct (workers_bounded_and_finish DNA_pair bytes literal_find false 2 example_iter
              example_input _ (le_n_S 0 1 (le_0_n 1)) Hreach)
    as (Hlen & _ & arrivals & _ & Hrun).
  split; [exact Hlen|]. by exists arrivals.
Defined.

(** X9, witness: the entries found in ACACAC; the reverse entry of GT
    lists its three locations from right to left. *)
Lemma locations_follow_matches_witness :
  (∀ entry, entry ∈ example_order →
     StronglySorted (λ x y : Z * Z, x.2 ≤ y.1)
       (literal_find entry.2 (rcSeq example_record2)) ∧
     StronglySorted (λ x y : Z * Z, x.2 ≤ y.1)
       (literal_find entry.2 (RevCom DNA_pair (rcSeq example_record2)))) ∧
  mkInfo example_record2 "GT" (-1) [(4, 6); (2, 4); (0, 2)]
    ∈ locate_record DNA_pair bytes literal_find false example_order example_record2 [] ∧
  StronglySorted (λ x y : Z * Z, y.2 ≤ x.1) [(4, 6); (2, 4); (0, 2)].
Proof.
  assert (∀ entry, entry ∈ example_order →
     StronglySorted (λ x y : Z * Z, x.2 ≤ y.1)
       (literal_find entry.2 (rcSeq example_record2)) ∧
     StronglySorted (λ x y : Z * Z, x.2 ≤ y.1)
       (literal_find entry.2 (RevCom DNA_pair (rcSeq example_record2)))) as Hsorted.
  { intros entry Hentry.
    apply elem_of_cons in Hentry as [->|Hentry];
      [|apply list_elem_of_singleton in Hentry; subst entry];
      split; vm_compute; repeat constructor; discriminate. }
  assert (mkInfo example_record2 "GT" (-1) [(4, 6); (2, 4); (0, 2)]
            ∈ locate_record DNA_pair bytes literal_find false example_order
                example_record2 []) as Hinfo by (vm_compute; right; left).
  split; [exact Hsorted|]. split; [exact Hinfo|].
  destruct (locations_follow_matches DNA_pair bytes literal_find false example_order
              example_record2 _ Hsorted Hinfo) as [[Hstrand _]|[_ Hdesc]].
  - simpl in Hstrand. lia.
  - exact Hdesc.
Defined.

(** X10, witness: the list AC, GT with [-i] and without a pattern file. *)
Lemma listed_patterns_prepared_witness :
  ∃ maps,
    prepare_patterns string Some String.string_of_list_byte Some example_pattern_file
      false true ["AC"; "GT"] "" = Some maps ∧
    maps.1 !! "AC" = Some (letters "AC") ∧
    maps.2 !! "AC" = Some "(?i)AC" ∧
    maps.1 !! "TT" = None ∧ maps.2 !! "TT" = None.
Proof.
  destruct (prepare_patterns string Some String.string_of_list_byte Some
              example_pattern_file false true ["AC"; "GT"] "") as [maps|] eqn:Hrun;
    [|vm_compute in Hrun; discriminate Hrun].
  exists maps. split; [reflexivity|].
  destruct (listed_patterns_prepared string Some String.string_of_list_byte Some
              example_pattern_file false true ["AC"; "GT"] maps Hrun "AC") as [Hin _].
  destruct (listed_patterns_prepared string Some String.string_of_list_byte Some
              example_pattern_file false true ["AC"; "GT"] maps Hrun "TT") as [_ Hout].
  destruct (Hin ltac:(left)) as (Hraw & _ & _ & Hre).
  destruct Hout as [Hraw' Hre'].
  { intros Hin'. repeat (apply elem_of_cons in Hin' as [Heq|Hin']; [discriminate Heq|]).
    by apply elem_of_nil in Hin'. }
  split; [exact Hraw|]. split; [exact (Hre eq_refl)|]. split; [exact Hraw'|exact Hre'].
Defined.

(** X12, witness: a list with a repetition and the same patterns in
    another order. *)
Lemma listed_patterns_as_a_set_witness :
  (∀ p : string, p ∈ ["AC"; "GT"; "AC"] ↔ p ∈ ["GT"; "AC"]) ∧
  prepare_patterns string Some String.string_of_list_byte Some example_pattern_file
    false false ["AC"; "GT"; "AC"] ""
  = prepare_patterns string Some String.string_of_list_byte Some example_pattern_file
      false false ["GT"; "AC"] "".
Proof.
  assert (∀ p : string, p ∈ ["AC"; "GT"; "AC"] ↔ p ∈ ["GT"; "AC"]) as Hsame.
  { intros p. rewrite !elem_of_cons, !elem_of_nil. tauto. }
  split; [exact Hsame|].
  exact (listed_patterns_as_a_set string Some String.string_of_list_byte Some
           example_pattern_file false false _ _ Hsame).
Defined.

(** X13, witness: the maps prepared from the example pattern file. *)
Lemma pattern_maps_same_keys_witness :
  ∃ maps,
    prepare_patterns string Some String.string_of_list_byte Some example_pattern_file
      false false ["AC"] "motifs.fa" = Some maps ∧
    dom maps.1 = dom maps.2.
Proof.
  destruct (prepare_patterns string Some String.string_of_list_byte Some
              example_pattern_file false false ["AC"] "motifs.fa") as [maps|] eqn:Hrun;
    [|vm_compute in Hrun; discriminate Hrun].
  exists maps. split; [reflexivity|].
  exact (proj1 (pattern_maps_same_keys string Some String.string_of_list_byte Some
                  example_pattern_file false false ["AC"] "motifs.fa" maps Hrun)).
Defined.

(** X14, witness: the example arrivals as the first and as the second file. *)
Lemma files_written_in_order_witness :
  ∃ lines,
    output DNA_pair example_patterns example_arrivals = Some (Header :: lines) ∧
    locate_files DNA_pair example_patterns [Header] [example_arrivals; example_arrivals]
    = Some (Header :: concat [lines; lines]).
Proof.
  pose proof (run_output DNA_pair bytes literal_find false example_patterns
                literal_find_in_range 8 example_iter example_input example_arrivals
                example_input_stream example_arrivals_run) as Hout.
  eexists. split; [exact Hout|].
  apply (files_written_in_order DNA_pair example_patterns).
  repeat (apply Forall2_cons; split; [exact Hout|]). apply Forall2_nil_2.
Defined.

(** X15, witness: the same result arriving twice. *)
Lemma receiver_accepts_any_ids_witness :
  Forall chunk_in_range example_repeated_arrivals ∧
  ∃ st, receiver DNA_pair example_patterns example_repeated_arrivals = Some st ∧
    ∀ chunk, chunk ∈ flushed st → chunk ∈ example_repeated_arrivals.
Proof.
  assert (Forall chunk_in_range example_repeated_arrivals) as Hrange.
  { unfold example_repeated_arrivals, example_worker.
    repeat (apply Forall_cons; split; [apply worker_in_range, literal_find_in_range|]).
    apply Forall_nil_2. }
  split; [exact Hrange|].
  exact (receiver_accepts_any_ids DNA_pair example_patterns example_repeated_arrivals
           Hrange).
Defined.
